(** * NanoZip (nz1.c): encoder, decoder and match finder

    A shallow embedding of [src/lz/nz1/nz1.c] and the properties of its
    compressed format.

    Conventions of the embedding:
    - a [uint8_t] is a [Byte.byte]; [b2z] reads it as a number in [0, 255]
      and [z2b] is the C conversion [(uint8_t)x];
    - [uint32_t], [uint16_t] and [size_t] values are [Z]; every narrowing
      conversion and every unsigned operation that can wrap is written out
      with [wrap32] and [wrap64] ([size_t] has 64 bits, as on the x86-64 and
      AArch64 targets the source selects first);
    - the host is little-endian, so the [memcpy] of a [uint32_t] into the
      stream stores its least significant byte first;
    - an input buffer [(ptr, len)] is a [list byte] with [len] its length;
      the [head] and [chain] tables are lists updated by index. *)

From Stdlib Require Import ZArith List Lia Bool.
From Stdlib Require Import Strings.Byte.
From stdpp Require Import base option list.
Import ListNotations.

Local Open Scope Z_scope.

(** ** Machine integers and bytes *)

Definition wrap32 (z : Z) : Z := z mod 2 ^ 32.
Definition wrap64 (z : Z) : Z := z mod 2 ^ 64.

(** [(ptrdiff_t)z] for a [size_t] value [z]. *)
Definition to_ptrdiff (z : Z) : Z := if z <? 2 ^ 63 then z else z - 2 ^ 64.

Definition b2z (b : byte) : Z := Z.of_N (Byte.to_N b).

(** [(uint8_t)z] *)
Definition z2b (z : Z) : byte :=
  match Byte.of_N (Z.to_N (z mod 256)) with
  | Some b => b
  | None => x00
  end.

(** [data[i]]: the byte at index [i]; the source never reads outside the
    buffer, here such a read yields 0. *)
Definition getb (data : list byte) (i : Z) : byte :=
  if i <? 0 then x00 else nth (Z.to_nat i) data x00.

(** Length of a buffer as a [size_t]. *)
Definition len (data : list byte) : Z := Z.of_nat (length data).

(** ** Configuration constants *)

Definition NZ_MAGIC : Z := 0x5A4E5A50.
Definition MAX_WINDOW : Z := Z.shiftl 1 16 - 1.
Definition MIN_WINDOW : Z := Z.shiftl 1 10.
Definition DEFAULT_WINDOW : Z := Z.shiftl 1 16 - 1.
Definition MAX_MATCH : Z := 258.
Definition MIN_MATCH : Z := 3.
Definition HASH_BITS : Z := 14.
Definition MATCH_SEARCH_LIMIT : nat := 32.
Definition CRC32_POLY : Z := 0xEDB88320.

(** ** Checksum: [nz_crc32] *)

(** One pass of the inner loop:
    [crc = (crc >> 1) ^ (CRC32_POLY & -(crc & 1))]. *)
Definition crc_shift (crc : Z) : Z :=
  Z.lxor (Z.shiftr crc 1) (Z.land CRC32_POLY (wrap32 (- Z.land crc 1))).

(** The body of the outer loop for one byte: [crc ^= data[i]], then the
    eight passes of the inner loop. *)
Definition crc_byte (crc : Z) (b : byte) : Z :=
  Nat.iter 8 crc_shift (Z.lxor crc (b2z b)).

(** [nz_crc32(data, len)] on the [len] bytes of [data]. *)
Definition nz_crc32 (data : list byte) : Z :=
  wrap32 (Z.lnot (fold_left crc_byte data 0xFFFFFFFF)).

(** ** Little-endian fields, as [memcpy] lays them out *)

Definition le32 (v : Z) : list byte :=
  [z2b v; z2b (v / 2 ^ 8); z2b (v / 2 ^ 16); z2b (v / 2 ^ 24)].

Definition le16 (v : Z) : list byte :=
  [z2b v; z2b (v / 2 ^ 8)].

Definition rd32 (data : list byte) (off : Z) : Z :=
  b2z (getb data off) + 2 ^ 8 * b2z (getb data (off + 1))
  + 2 ^ 16 * b2z (getb data (off + 2)) + 2 ^ 24 * b2z (getb data (off + 3)).

Definition rd16 (data : list byte) (off : Z) : Z :=
  b2z (getb data off) + 2 ^ 8 * b2z (getb data (off + 1)).

(** ** Vector comparator: the three lane widths of the platform section *)

Inductive lanes := AVX2 | NEON | Portable.

(** How the first differing lane is located: [__builtin_ctz(~mask)] under
    GCC and Clang, the shift-and-test loop otherwise. *)
Inductive bitscan := BuiltinCtz | ShiftLoop.

Record backend := mkBackend { bk_lanes : lanes; bk_scan : bitscan }.

Definition SIMD_WIDTH (l : lanes) : Z :=
  match l with AVX2 => 32 | NEON => 16 | Portable => 8 end.

(** [VEC_LOAD(data + off)]: the [SIMD_WIDTH] bytes starting at [off]. *)
Definition VEC_LOAD (l : lanes) (data : list byte) (off : Z) : list byte :=
  map (fun i => getb data (off + Z.of_nat i)) (seq 0 (Z.to_nat (SIMD_WIDTH l))).

(** [VEC_CMP(a, b)]: [0xFF] in every lane where the bytes agree, 0 elsewhere. *)
Definition VEC_CMP (a b : list byte) : list byte :=
  zip_with (fun x y => if b2z x =? b2z y then xff else x00) a b.

(** The test [VEC_MOVEMASK] applies to one lane: the top bit of the byte
    ([_mm256_movemask_epi8] and the portable macro), or equality with [0xFF]
    (the NEON macro). *)
Definition lane_bit (l : lanes) (v : byte) : bool :=
  match l with
  | AVX2 => negb (Z.land (b2z v) 0x80 =? 0)
  | NEON => b2z v =? 0xFF
  | Portable => negb (Z.land (b2z v) 0x80 =? 0)
  end.

Fixpoint movemask_from (l : lanes) (i : Z) (v : list byte) (m : Z) : Z :=
  match v with
  | [] => m
  | x :: v' =>
      movemask_from l (i + 1) v'
        (if lane_bit l x then Z.lor m (Z.shiftl 1 i) else m)
  end.

Definition VEC_MOVEMASK (l : lanes) (v : list byte) : Z := movemask_from l 0 v 0.

(** [(1 << SIMD_WIDTH) - 1] compared with a [uint32_t]. For the 32-byte
    lanes the shift count equals the width of [int], which C leaves
    undefined; the shifted value is taken modulo [2^32] (the compile-time
    folding to 0), the reading under which the constant is the all-ones
    mask the source's comment asks for. [full_mask] and [vec_loop_with]
    below leave the constant open. *)
Definition lane_full (l : lanes) : Z :=
  wrap32 (wrap32 (Z.shiftl 1 (SIMD_WIDTH l)) - 1).

Fixpoint ctz_from (n : nat) (i : Z) (x : Z) : Z :=
  match n with
  | O => i
  | S n' => if Z.testbit x i then i else ctz_from n' (i + 1) x
  end.

(** [__builtin_ctz(x)] on a 32-bit [x]. *)
Definition builtin_ctz (x : Z) : Z := ctz_from 32 0 x.

(** [for (j = 0; j < SIMD_WIDTH; ++j) if (!((mask >> j) & 1)) { len += j; break; }] *)
Fixpoint scan_loop (n : nat) (j : Z) (mask len : Z) : Z :=
  match n with
  | O => len
  | S n' =>
      if Z.land (Z.shiftr mask j) 1 =? 0 then len + j
      else scan_loop n' (j + 1) mask len
  end.

Definition first_mismatch (bk : backend) (mask len : Z) : Z :=
  match bk_scan bk with
  | BuiltinCtz => len + builtin_ctz (wrap32 (Z.lnot mask))
  | ShiftLoop => scan_loop (Z.to_nat (SIMD_WIDTH (bk_lanes bk))) 0 mask len
  end.

(** [while (len + SIMD_WIDTH <= max_len) { ... }]. Every pass that does not
    leave the loop adds [SIMD_WIDTH] to [len], so [max_len] passes are
    enough; [fuel] is that bound. *)
Fixpoint vec_loop (fuel : nat) (bk : backend) (data : list byte)
    (pos candidate max_len len : Z) : Z :=
  match fuel with
  | O => len
  | S fuel' =>
      let l := bk_lanes bk in
      if len + SIMD_WIDTH l <=? max_len then
        let a := VEC_LOAD l data (pos + len) in
        let b := VEC_LOAD l data (candidate + len) in
        let cmp := VEC_CMP a b in
        let mask := VEC_MOVEMASK l cmp in
        if negb (mask =? lane_full l) then first_mismatch bk mask len
        else vec_loop fuel' bk data pos candidate max_len (len + SIMD_WIDTH l)
      else len
  end.

(** [while (len < max_len && data[pos+len] == data[candidate+len]) len++;] *)
Fixpoint tail_loop (fuel : nat) (data : list byte)
    (pos candidate max_len len : Z) : Z :=
  match fuel with
  | O => len
  | S fuel' =>
      if (len <? max_len)
         && (b2z (getb data (pos + len)) =? b2z (getb data (candidate + len)))
      then tail_loop fuel' data pos candidate max_len (len + 1)
      else len
  end.

(** The two comparison loops of [find_match], run one after the other. *)
Definition match_length (bk : backend) (data : list byte)
    (pos candidate max_len : Z) : Z :=
  let len := vec_loop (Z.to_nat max_len) bk data pos candidate max_len 0 in
  tail_loop (Z.to_nat max_len) data pos candidate max_len len.

(** A byte-by-byte comparison written on its own: the number of leading
    positions, among the first [n], at which the spans at [p] and [q] agree. *)
Fixpoint scalar_prefix (n : nat) (data : list byte) (p q : Z) : Z :=
  match n with
  | O => 0
  | S n' =>
      if b2z (getb data p) =? b2z (getb data q)
      then 1 + scalar_prefix n' data (p + 1) (q + 1)
      else 0
  end.

(** ** The constant of the mask test *)





(** ** Match finder *)

Record NZ_State := mkState {
  head : list Z;
  chain : list Z;
  window_size : Z
}.

(** Reads and writes of a [uint32_t] table. *)
Definition tbl_get (t : list Z) (i : Z) : Z := default 0 (t !! Z.to_nat i).
Definition tbl_set (t : list Z) (i v : Z) : list Z := <[Z.to_nat i := v]> t.

(** [nz_init(state, window_size)], with [calloc]'s zeroed tables. *)
Definition nz_init (window_size : Z) : NZ_State :=
  let w := if window_size <? MIN_WINDOW then DEFAULT_WINDOW else window_size in
  let w := if w >? MAX_WINDOW then MAX_WINDOW else w in
  {| head := replicate (Z.to_nat (Z.shiftl 1 HASH_BITS)) 0;
     chain := replicate (Z.to_nat w) 0;
     window_size := w |}.

(** The hash of the three bytes at [pos]. *)
Definition hash3 (data : list byte) (pos : Z) : Z :=
  let h := Z.lor (Z.lor (Z.shiftl (b2z (getb data pos)) 16)
                        (Z.shiftl (b2z (getb data (pos + 1))) 8))
                 (b2z (getb data (pos + 2))) in
  Z.shiftr (wrap32 (h * 0x9E3779B1)) (32 - HASH_BITS).

(** The candidate loop [for (i = 0; i < MATCH_SEARCH_LIMIT && candidate; i++)];
    [fuel] counts the passes that remain. It returns [best_len] and
    [best_match_candidate]. *)
Fixpoint search (fuel : nat) (bk : backend) (data : list byte) (pos end_ : Z)
    (st : NZ_State) (candidate best_len best_cand : Z) : Z * Z :=
  match fuel with
  | O => (best_len, best_cand)
  | S fuel' =>
      if candidate =? 0 then (best_len, best_cand)
      else if candidate =? pos then
        search fuel' bk data pos end_ st
          (tbl_get (chain st) (candidate mod window_size st)) best_len best_cand
      else
        let dist := wrap64 (pos - candidate) in
        if dist >? window_size st then (best_len, best_cand)
        else
          let max_len :=
            if end_ - pos <? MAX_MATCH then end_ - pos else MAX_MATCH in
          let len := match_length bk data pos candidate max_len in
          if (len >? best_len) && (len >=? MIN_MATCH) then
            if len >=? MAX_MATCH then (len, candidate)
            else
              search fuel' bk data pos end_ st
                (tbl_get (chain st) (candidate mod window_size st)) len candidate
          else
            search fuel' bk data pos end_ st
              (tbl_get (chain st) (candidate mod window_size st))
              best_len best_cand
  end.

(** [find_match(data, pos, end, state, &out_match_pos)] returns the length,
    the value left in [*out_match_pos] and the updated state. *)
Definition find_match (bk : backend) (data : list byte) (pos end_ : Z)
    (st : NZ_State) : Z * Z * NZ_State :=
  if pos + MIN_MATCH >? end_ then (0, 0, st)
  else
    let hash := hash3 data pos in
    let prev_head_value := tbl_get (head st) hash in
    let st1 := {| head := tbl_set (head st) hash (wrap32 pos);
                  chain := chain st;
                  window_size := window_size st |} in
    let '(best_len, best_match_candidate) :=
      search MATCH_SEARCH_LIMIT bk data pos end_ st1 prev_head_value 0 0 in
    let st2 := {| head := head st1;
                  chain := tbl_set (chain st1) (pos mod window_size st1)
                                   prev_head_value;
                  window_size := window_size st1 |} in
    (best_len, best_match_candidate, st2).

(** ** Encoder: [nanozip_compress] *)

(** The loop variables: the input position, the bytes written to [output]
    so far ([out_ptr - output] is their number) and the search tables. *)
Record cstate := mkC {
  c_pos : Z;
  c_out : list byte;
  c_st : NZ_State
}.

Inductive cstep := CNext (s : cstate) | CBreak.

(** The 14-byte header written before the loop. *)
Definition header (input : list byte) (st : NZ_State) : list byte :=
  le32 NZ_MAGIC ++ le32 (wrap32 (len input)) ++ le32 (nz_crc32 input)
  ++ le16 (window_size st mod 2 ^ 16).

(** One pass of the body of [for (pos = 0; pos < in_size; )]. *)
Definition comp_body (bk : backend) (input : list byte) (out_size : Z)
    (s : cstate) : cstep :=
  let pos := c_pos s in
  let '(match_len, actual_match_pos, st') :=
    find_match bk input pos (len input) (c_st s) in
  if match_len >=? MIN_MATCH then
    let dist := wrap32 (pos - actual_match_pos) in
    if len (c_out s) >? to_ptrdiff out_size - 4 then CBreak
    else
      CNext {| c_pos := pos + match_len;
               c_out := c_out s ++ [xc0; z2b dist; z2b (Z.shiftr dist 8);
                                    z2b (match_len - MIN_MATCH)];
               c_st := st' |}
  else if b2z (getb input pos) =? 0xBF then
    if len (c_out s) >=? to_ptrdiff out_size - 2 then CBreak
    else CNext {| c_pos := pos + 1; c_out := c_out s ++ [xbf; xbf]; c_st := st' |}
  else if b2z (getb input pos) >=? 0xC0 then
    if len (c_out s) >=? to_ptrdiff out_size - 2 then CBreak
    else CNext {| c_pos := pos + 1;
                  c_out := c_out s ++ [xbf; getb input pos];
                  c_st := st' |}
  else
    if len (c_out s) >=? to_ptrdiff out_size - 1 then CBreak
    else CNext {| c_pos := pos + 1;
                  c_out := c_out s ++ [getb input pos];
                  c_st := st' |}.

(** The loop. Every pass that continues moves [pos] forward, so [in_size]
    passes are enough; [fuel] is that bound. *)
Fixpoint comp_loop (fuel : nat) (bk : backend) (input : list byte)
    (out_size : Z) (s : cstate) : cstate :=
  match fuel with
  | O => s
  | S fuel' =>
      if c_pos s <? len input then
        match comp_body bk input out_size s with
        | CNext s' => comp_loop fuel' bk input out_size s'
        | CBreak => s
        end
      else s
  end.

Definition comp_init (input : list byte) (window_size : Z) : cstate :=
  let st := nz_init (wrap64 window_size) in
  {| c_pos := 0; c_out := header input st; c_st := st |}.

(** The state in which the loop of [nanozip_compress] ends, or [None] when
    the function returns before writing anything. [window_size] is the [int]
    argument, converted to [size_t] for [nz_init]. The sum [in_size + 14] is
    not reduced modulo [2^64]: a buffer of [in_size] bytes leaves room for 14
    more below [2^64]. *)
Definition compress_run (bk : backend) (input : list byte) (out_size : Z)
    (window_size : Z) : option cstate :=
  if out_size <? len input + 14 then None
  else Some (comp_loop (length input) bk input out_size
               (comp_init input window_size)).

(** [nanozip_compress]: the returned count and the bytes written. *)
Definition nanozip_compress (bk : backend) (input : list byte) (out_size : Z)
    (window_size : Z) : Z * list byte :=
  match compress_run bk input out_size window_size with
  | None => (0, [])
  | Some s => (len (c_out s), c_out s)
  end.

(** The loop states the encoder passes through. *)
Inductive comp_reach (bk : backend) (input : list byte) (out_size : Z) :
    cstate -> cstate -> Prop :=
| comp_reach_refl s : comp_reach bk input out_size s s
| comp_reach_step s s1 s2 :
    c_pos s < len input ->
    comp_body bk input out_size s = CNext s1 ->
    comp_reach bk input out_size s1 s2 ->
    comp_reach bk input out_size s s2.

(** ** Decoder: [nanozip_decompress] *)

(** Accesses to the caller's output buffer, recorded for the statements
    about bounds; the record does not influence the run. *)
Inductive access := Write (i : Z) | Read (i : Z).

(** The loop variables: the unread input ([in_ptr], with [in_remain] its
    length), [out_pos], the contents of the output buffer, and the accesses
    made so far, most recent first. *)
Record dstate := mkD {
  d_in : list byte;
  d_pos : Z;
  d_out : list byte;
  d_log : list access
}.

(** [output[out_pos++] = v]; [None] is a write outside the buffer. *)
Definition emit (s : dstate) (v : byte) : option dstate :=
  if (0 <=? d_pos s) && (d_pos s <? len (d_out s)) then
    Some {| d_in := d_in s;
            d_pos := d_pos s + 1;
            d_out := <[Z.to_nat (d_pos s) := v]> (d_out s);
            d_log := Write (d_pos s) :: d_log s |}
  else None.

(** [output[i]]; [None] is a read outside the buffer. *)
Definition load (s : dstate) (i : Z) : option (byte * dstate) :=
  if (0 <=? i) && (i <? len (d_out s)) then
    Some (getb (d_out s) i,
          {| d_in := d_in s; d_pos := d_pos s; d_out := d_out s;
             d_log := Read i :: d_log s |})
  else None.

(** [for (i = 0; i < len; i++) { output[out_pos] = output[out_pos - dist]; out_pos++; }] *)
Fixpoint copy_match (n : nat) (dist : Z) (s : dstate) : option dstate :=
  match n with
  | O => Some s
  | S n' =>
      '(b, s1) ← load s (d_pos s - dist);
      s2 ← emit s1 b;
      copy_match n' dist s2
  end.

Definition advance (s : dstate) (rest : list byte) : dstate :=
  {| d_in := rest; d_pos := d_pos s; d_out := d_out s; d_log := d_log s |}.

Inductive dstep := DNext (s : dstate) | DBreak | DFault.

Definition dnext (o : option dstate) : dstep :=
  match o with Some s => DNext s | None => DFault end.

(** One pass of the body of [while (in_remain > 0 && out_pos < data_size)]. *)
Definition dec_body (data_size : Z) (s : dstate) : dstep :=
  match d_in s with
  | [] => DBreak
  | b :: rest =>
      if b2z b =? 0xBF then
        match rest with
        | [] => DBreak
        | v :: rest' => dnext (emit (advance s rest') v)
        end
      else if b2z b =? 0xC0 then
        match rest with
        | b1 :: b2 :: b3 :: rest' =>
            let len0 := b2z b3 in
            let dist := Z.lor (b2z b1) (Z.shiftl (b2z b2) 8) in
            let len := len0 + MIN_MATCH in
            if len >? MAX_MATCH then DBreak
            else if (dist =? 0) || (dist >? d_pos s)
                    || (d_pos s + len >? data_size) then DBreak
            else dnext (s' ← copy_match (Z.to_nat len) dist s;
                        Some (advance s' rest'))
        | _ => DBreak
        end
      else dnext (emit (advance s rest) b)
  end.

(** The loop. Every pass that continues consumes input, so [in_remain]
    passes are enough; [fuel] is that bound. [None] is an access outside the
    output buffer. *)
Fixpoint dec_loop (fuel : nat) (data_size : Z) (s : dstate) : option dstate :=
  match fuel with
  | O => Some s
  | S fuel' =>
      if (0 <? len (d_in s)) && (d_pos s <? data_size) then
        match dec_body data_size s with
        | DNext s' => dec_loop fuel' data_size s'
        | DBreak => Some s
        | DFault => None
        end
      else Some s
  end.

(** The reads [nz_crc32(output, data_size)] performs: the first
    [data_size] bytes of the buffer, in order. *)
Definition load_span (s : dstate) (n : Z) : option (list byte * dstate) :=
  if n <=? len (d_out s) then
    Some (take (Z.to_nat n) (d_out s),
          {| d_in := d_in s; d_pos := d_pos s; d_out := d_out s;
             d_log := rev (map (fun i => Read (Z.of_nat i)) (seq 0 (Z.to_nat n)))
                      ++ d_log s |})
  else None.

Definition dec_init (input output : list byte) : dstate :=
  {| d_in := drop 14 input; d_pos := 0; d_out := output; d_log := [] |}.

(** Header fields as the decoder reads them. *)
Definition hdr_magic (input : list byte) : Z := rd32 input 0.
Definition hdr_size (input : list byte) : Z := rd32 input 4.
Definition hdr_crc (input : list byte) : Z := rd32 input 8.
Definition hdr_window (input : list byte) : Z := rd16 input 12.

Definition header_ok (input : list byte) (out_size : Z) : bool :=
  negb (len input <? 14)
  && (hdr_magic input =? NZ_MAGIC)
  && negb ((hdr_window input =? 0) || (hdr_window input >? MAX_WINDOW)
           || (hdr_size input >? out_size)).

(** [nanozip_decompress(input, in_size, output, out_size)] on a buffer
    [output]: the returned value with the final loop state, or [None] when
    an access falls outside [output]. *)
Definition decompress_run (input output : list byte) (out_size : Z) :
    option (Z * dstate) :=
  let s0 := dec_init input output in
  if len input <? 14 then Some (0, s0)
  else if negb (hdr_magic input =? NZ_MAGIC) then Some (0, s0)
  else
    let data_size := hdr_size input in
    let crc := hdr_crc input in
    let window_size := hdr_window input in
    if (window_size =? 0) || (window_size >? MAX_WINDOW)
       || (data_size >? out_size) then Some (0, s0)
    else
      s ← dec_loop (length (d_in s0)) data_size s0;
      if negb (d_pos s =? data_size) then Some (0, s)
      else
        '(produced, s') ← load_span s data_size;
        if negb (nz_crc32 produced =? crc) then Some (0, s')
        else Some (data_size, s').

(** The returned value and the final contents of the output buffer. *)
Definition nanozip_decompress (input output : list byte) (out_size : Z) :
    option (Z * list byte) :=
  '(r, s) ← decompress_run input output out_size; Some (r, d_out s).

(** The loop states the decoder passes through. *)
Inductive dec_reach (data_size : Z) : dstate -> dstate -> Prop :=
| dec_reach_refl s : dec_reach data_size s s
| dec_reach_step s s1 s2 :
    0 < len (d_in s) -> d_pos s < data_size ->
    dec_body data_size s = DNext s1 ->
    dec_reach data_size s1 s2 ->
    dec_reach data_size s s2.

(** ** Predicates used in the statements *)

(** The bytes of the two spans agree at offset [k]. *)
Definition agree (data : list byte) (p q k : Z) : bool :=
  b2z (getb data (p + k)) =? b2z (getb data (q + k)).

(** The scalar count continued from offset [len]. *)
Definition scalar_from (data : list byte) (pos cand max_len len : Z) : Z :=
  len + scalar_prefix (Z.to_nat (max_len - len)) data (pos + len) (cand + len).

Definition entry_ok (v : Z) : Prop := 0 <= v < 2 ^ 32.

(** The tables as [nz_init] allocates them and [find_match] keeps them. *)
Record wf_state (st : NZ_State) : Prop := {
  wf_head_len : length (head st) = Z.to_nat (Z.shiftl 1 HASH_BITS);
  wf_chain_len : length (chain st) = Z.to_nat (window_size st);
  wf_window : MIN_WINDOW <= window_size st <= MAX_WINDOW;
  wf_head : Forall entry_ok (head st);
  wf_chain : Forall entry_ok (chain st)
}.

(** What the encoder needs of a match: its length and distance fit the
    token, its source lies before [pos] within the window, and the two spans
    hold the same bytes. *)
Record good_match (data : list byte) (pos end_ w len cand : Z) : Prop := {
  gm_len : MIN_MATCH <= len <= MAX_MATCH;
  gm_end : pos + len <= end_;
  gm_cand : 1 <= cand < pos;
  gm_dist : pos - cand <= w;
  gm_bytes : forall k, 0 <= k < len -> getb data (pos + k) = getb data (cand + k)
}.

(** The state [find_match] leaves when it does not return at once. *)
Definition recorded (data : list byte) (pos : Z) (st : NZ_State) : NZ_State :=
  {| head := tbl_set (head st) (hash3 data pos) (wrap32 pos);
     chain := tbl_set (chain st) (pos mod window_size st)
                      (tbl_get (head st) (hash3 data pos));
     window_size := window_size st |}.

(** Every read in the record is of an index written before it (the record
    lists the most recent access first). *)
Fixpoint log_ok (log : list access) : Prop :=
  match log with
  | [] => True
  | Write _ :: l => log_ok l
  | Read i :: l => In (Write i) l /\ log_ok l
  end.

(** What holds of the loop variables before and after every pass. *)
Record dinv (D : Z) (s : dstate) : Prop := {
  di_pos : 0 <= d_pos s <= D;
  di_cap : D <= len (d_out s);
  di_writes : forall i, In (Write i) (d_log s) <-> 0 <= i < d_pos s;
  di_reads : log_ok (d_log s)
}.

Definition loop_cond (D : Z) (s : dstate) : bool :=
  (0 <? len (d_in s)) && (d_pos s <? D).

(** The match token at the head of the unread input, if a complete one is
    there: its length and its distance. *)
Definition match_token (s : dstate) : option (Z * Z) :=
  match d_in s with
  | b :: b1 :: b2 :: b3 :: _ =>
      if b2z b =? 0xC0
      then Some (b2z b3 + MIN_MATCH, Z.lor (b2z b1) (Z.shiftl (b2z b2) 8))
      else None
  | _ => None
  end.

(** The unread input ends inside a token: an escape marker with nothing
    after it, or a match marker with fewer than three bytes after it. *)
Definition cut_token (l : list byte) : Prop :=
  match l with
  | [] => False
  | b :: rest =>
      (b2z b = 0xBF /\ rest = []) \/ (b2z b = 0xC0 /\ (length rest < 3)%nat)
  end.

(** The value [nanozip_decompress] returns once the header is accepted. *)
Definition verdict (input : list byte) (s : dstate) : Z :=
  if (d_pos s =? hdr_size input)
     && (nz_crc32 (take (Z.to_nat (hdr_size input)) (d_out s)) =? hdr_crc input)
  then hdr_size input else 0.

(** ** The token stream, as the format describes it *)

Inductive token :=
| TLit (b : byte)
| TEsc (b : byte)
| TMatch (dist len : Z).

(** The three rows of the token table: a direct literal is the byte itself,
    an escaped literal is [0xBF] and the byte, a match is [0xC0], the two
    bytes of the distance (low, high) and the length minus 3. *)
Definition token_bytes (t : token) : list byte :=
  match t with
  | TLit b => [b]
  | TEsc b => [xbf; b]
  | TMatch dist len =>
      [xc0; z2b dist; z2b (Z.shiftr dist 8); z2b (len - MIN_MATCH)]
  end.


(** The pass of the encoder loop from [s] to [s1] has written the token
    [t], and [t] stands for the input at the position of [s]. *)
Definition emitted (input : list byte) (s s1 : cstate) (t : token) : Prop :=
  c_out s1 = c_out s ++ token_bytes t
  /\ match t with
     | TLit b =>
         b = getb input (c_pos s) /\ b2z b <= 0xBE /\ c_pos s1 = c_pos s + 1
     | TEsc b =>
         b = getb input (c_pos s) /\ (b2z b = 0xBF \/ 0xC0 <= b2z b)
         /\ c_pos s1 = c_pos s + 1
     | TMatch dist mlen =>
         MIN_MATCH <= mlen <= MAX_MATCH
         /\ 1 <= dist <= Z.min (c_pos s) (window_size (c_st s))
         /\ c_pos s1 = c_pos s + mlen /\ c_pos s1 <= len input
         /\ forall k, 0 <= k < mlen ->
              getb input (c_pos s + k) = getb input (c_pos s - dist + k)
     end.

(** The bytes a token stands for are its own: a direct literal is none of
    the two markers. *)
Definition token_ok (t : token) : Prop :=
  match t with
  | TLit b => b2z b <= 0xBE
  | TEsc b => b2z b = 0xBF \/ 0xC0 <= b2z b
  | TMatch dist len =>
      MIN_MATCH <= len <= MAX_MATCH /\ 1 <= dist <= MAX_WINDOW
  end.

(** The first [n] bytes of [buf] are those of [input]. *)
Definition prefix_agrees (buf input : list byte) (n : Z) : Prop :=
  forall i, 0 <= i < n -> getb buf i = getb input i.

(** The bytes of a sequence of tokens. *)
Definition tokens_bytes (toks : list token) : list byte :=
  concat (map token_bytes toks).

(** What holds of the encoder's loop variables before and after every pass. *)
Record cinv (input : list byte) (s : cstate) : Prop := {
  ci_pos : 0 <= c_pos s <= len input;
  ci_st : wf_state (c_st s);
  ci_out : 14 <= len (c_out s)
}.

(** A token stream walked token by token, with the sizes of the token
    table (escape 2 bytes, match 4 bytes, anything else 1 byte): does it end
    inside an escape or a match token? *)
Fixpoint ends_inside_token (stream : list byte) : bool :=
  match stream with
  | [] => false
  | b :: rest =>
      if b2z b =? 0xBF then
        match rest with
        | [] => true
        | _ :: rest' => ends_inside_token rest'
        end
      else if b2z b =? 0xC0 then
        match rest with
        | _ :: _ :: _ :: rest' => ends_inside_token rest'
        | _ => true
        end
      else ends_inside_token rest
  end.

(** "A stream that ends inside a token is refused", read on the stream
    alone. *)
Definition cut_stream_refused (input output : list byte) (out_size : Z) : Prop :=
  ends_inside_token (drop 14 input) = true ->
  exists buf, nanozip_decompress input output out_size = Some (0, buf).

(** "Every match token of an accepted stream has a length in [3, 258] and a
    distance in [1, min(out_pos, window_size)]", with the window size of the
    header. *)
Definition distance_within_window (input output : list byte) (out_size : Z) :
    Prop :=
  forall r s, decompress_run input output out_size = Some (r, s) -> r <> 0 ->
  forall t len dist,
    dec_reach (hdr_size input) (dec_init input output) t ->
    loop_cond (hdr_size input) t = true ->
    match_token t = Some (len, dist) ->
    MIN_MATCH <= len <= MAX_MATCH
    /\ 1 <= dist <= Z.min (d_pos t) (hdr_window input).

(** "0 is returned exactly when the capacity does not hold the 14-byte
    header." *)
Definition zero_iff_no_header_room (bk : backend) (input : list byte)
    (out_size w : Z) : Prop :=
  (nanozip_compress bk input out_size w).1 = 0 <-> out_size < 14.

(** "The field at offset 4 is the size of the input." *)
Definition size_field_is_size (bk : backend) (input : list byte)
    (out_size w : Z) : Prop :=
  hdr_size (nanozip_compress bk input out_size w).2 = len input.



(** "After a call that does not return at once, head[hash] is pos." *)
Definition head_holds_pos (bk : backend) (data : list byte) (pos end_ : Z)
    (st : NZ_State) : Prop :=
  pos + MIN_MATCH <= end_ ->
  tbl_get (head (find_match bk data pos end_ st).2) (hash3 data pos) = pos.

(** ** Further predicates and the test driver *)

(** A value of a [uint32_t]. *)
Definition u32 (z : Z) : Prop := 0 <= z < 2 ^ 32.





(** ** Inputs for the trials *)


(** [A], the two bytes [0xBF] and [0xC5], the letters [a] to [t], their
    first 19 again before an [X], their first 11 again before a [Z], and
    eight digits: 63 bytes that take a direct literal, escapes and matches,
    the second match ending inside a block of lanes. *)
Definition mixed_input : list byte :=
  [x41; xbf; xc5;
   x61; x62; x63; x64; x65; x66; x67; x68; x69; x6a;
   x6b; x6c; x6d; x6e; x6f; x70; x71; x72; x73; x74;
   x61; x62; x63; x64; x65; x66; x67; x68; x69; x6a;
   x6b; x6c; x6d; x6e; x6f; x70; x71; x72; x73; x58;
   x61; x62; x63; x64; x65; x66; x67; x68; x69; x6a; x6b; x5a;
   x30; x31; x32; x33; x34; x35; x36; x37].

Definition ascii_ABCABCABC : list byte :=
  [x41; x42; x43; x41; x42; x43; x41; x42; x43; x41; x42; x43].


(** The literal [A] and a dangling escape marker, announced as one byte. *)
Definition stream_A_cut : list byte :=
  [x50; x5a; x4e; x5a; x01; x00; x00; x00; x8b; x9e; xd9; xd3; xff; xff;
   x41; xbf].

(** [ab] and a match of length 3 at distance 2, under a window of 1. *)
Definition stream_window1 : list byte :=
  [x50; x5a; x4e; x5a; x05; x00; x00; x00; x94; x6f; x34; xd7; x01; x00;
   x61; x62; xc0; x02; x00; x00].

(** Buffers of 4 GiB: zero bytes, and bytes [0xBF]. *)
Definition four_gib_zeros : list byte := replicate (Z.to_nat (2 ^ 32)) x00.

(** Three more zero bytes, for a call of [find_match] at position [2^32]. *)
Definition four_gib_zeros_3 : list byte := replicate (Z.to_nat (2 ^ 32 + 3)) x00.
(** * Properties *)

(** ** Trials on small inputs *)

Example crc_check_value :
  nz_crc32 [x31; x32; x33; x34; x35; x36; x37; x38; x39] = 0xCBF43926.
Proof. vm_compute. reflexivity. Qed.

Example compress_trial :
  nanozip_compress (mkBackend Portable BuiltinCtz) ascii_ABCABCABC 100 0
  = (22, [x50; x5a; x4e; x5a; x0c; x00; x00; x00; x24; x63; x5c; xcf; xff; xff;
          x41; x42; x43; x41; xc0; x03; x00; x05]).
Proof. vm_compute. reflexivity. Qed.

Example decompress_trial :
  nanozip_decompress
    [x50; x5a; x4e; x5a; x0c; x00; x00; x00; x24; x63; x5c; xcf; xff; xff;
     x41; x42; x43; x41; xc0; x03; x00; x05]
    (replicate 12 x00) 12
  = Some (12, ascii_ABCABCABC).
Proof. vm_compute. reflexivity. Qed.
(** ** Bytes and buffers *)

Lemma b2z_range b : 0 <= b2z b < 256.
Proof. unfold b2z. pose proof (Byte.to_N_bounded b). lia. Qed.

Lemma b2z_z2b z : b2z (z2b z) = z mod 256.
Proof.
  unfold b2z, z2b.
  pose proof (Z.mod_pos_bound z 256 ltac:(lia)) as Hm.
  destruct (Byte.of_N (Z.to_N (z mod 256))) eqn:E.
  - apply Byte.to_of_N in E. rewrite E. lia.
  - apply Byte.of_N_None_iff in E. lia.
Qed.

Lemma z2b_b2z b : z2b (b2z b) = b.
Proof.
  unfold z2b, b2z.
  rewrite Z.mod_small by (pose proof (Byte.to_N_bounded b); lia).
  by rewrite N2Z.id, Byte.of_to_N.
Qed.

Lemma b2z_inj a b : b2z a = b2z b -> a = b.
Proof. intros H. by rewrite <- (z2b_b2z a), <- (z2b_b2z b), H. Qed.

Lemma b2z_eqb a b : (b2z a =? b2z b) = true <-> a = b.
Proof.
  rewrite Z.eqb_eq. split; [apply b2z_inj | by intros ->].
Qed.

Lemma len_nonneg l : 0 <= len l.
Proof. unfold len. lia. Qed.

Lemma len_app l1 l2 : len (l1 ++ l2) = len l1 + len l2.
Proof. unfold len. rewrite length_app. lia. Qed.

Lemma getb_lookup l i : 0 <= i -> getb l i = default x00 (l !! Z.to_nat i).
Proof.
  intros Hi. unfold getb.
  destruct (Z.ltb_spec i 0); [lia|]. apply nth_lookup.
Qed.

Lemma getb_app_l l1 l2 i : 0 <= i < len l1 -> getb (l1 ++ l2) i = getb l1 i.
Proof.
  unfold len. intros Hi. rewrite !getb_lookup by lia.
  by rewrite lookup_app_l by lia.
Qed.

Lemma getb_app_r l1 l2 i : 0 <= i -> getb (l1 ++ l2) (len l1 + i) = getb l2 i.
Proof.
  unfold len. intros Hi. rewrite !getb_lookup by lia.
  rewrite lookup_app_r by lia. do 3 f_equal. lia.
Qed.

Lemma getb_cons_0 b l : getb (b :: l) 0 = b.
Proof. reflexivity. Qed.

Lemma getb_cons_S b l i : 0 < i -> getb (b :: l) i = getb l (i - 1).
Proof.
  intros Hi. rewrite !getb_lookup by lia.
  replace (Z.to_nat i) with (S (Z.to_nat (i - 1))) by lia. done.
Qed.

Lemma getb_insert_eq l i v : 0 <= i < len l -> getb (<[Z.to_nat i := v]> l) i = v.
Proof.
  unfold len. intros Hi. rewrite getb_lookup by lia.
  by rewrite list_lookup_insert_eq by lia.
Qed.

Lemma getb_insert_ne l i j v :
  0 <= i -> 0 <= j -> i <> j -> getb (<[Z.to_nat i := v]> l) j = getb l j.
Proof.
  intros Hi Hj Hne. rewrite !getb_lookup by lia.
  by rewrite list_lookup_insert_ne by lia.
Qed.


(** ** Little-endian fields *)

Lemma rd32_app pre a b c d rest :
  rd32 (pre ++ a :: b :: c :: d :: rest) (len pre)
  = b2z a + 2 ^ 8 * b2z b + 2 ^ 16 * b2z c + 2 ^ 24 * b2z d.
Proof.
  unfold rd32. rewrite <- (Z.add_0_r (len pre)) at 1.
  rewrite !getb_app_r by lia. reflexivity.
Qed.

Lemma rd16_app pre a b rest :
  rd16 (pre ++ a :: b :: rest) (len pre) = b2z a + 2 ^ 8 * b2z b.
Proof.
  unfold rd16. rewrite <- (Z.add_0_r (len pre)) at 1.
  rewrite !getb_app_r by lia. reflexivity.
Qed.

Lemma le32_value v :
  0 <= v < 2 ^ 32 ->
  v mod 256 + 2 ^ 8 * ((v / 2 ^ 8) mod 256) + 2 ^ 16 * ((v / 2 ^ 16) mod 256)
  + 2 ^ 24 * ((v / 2 ^ 24) mod 256) = v.
Proof.
  intros Hv.
  change (2 ^ 8) with 256. change (2 ^ 16) with 65536.
  change (2 ^ 24) with 16777216. change (2 ^ 32) with 4294967296 in Hv.
  Z.div_mod_to_equations. lia.
Qed.

Lemma le16_value v :
  0 <= v < 2 ^ 16 -> v mod 256 + 2 ^ 8 * ((v / 2 ^ 8) mod 256) = v.
Proof.
  intros Hv. change (2 ^ 8) with 256. change (2 ^ 16) with 65536 in Hv.
  Z.div_mod_to_equations. lia.
Qed.

Lemma rd32_le32 pre v rest :
  0 <= v < 2 ^ 32 -> rd32 (pre ++ le32 v ++ rest) (len pre) = v.
Proof.
  intros Hv. unfold le32. cbn [app]. rewrite rd32_app, !b2z_z2b.
  by apply le32_value.
Qed.

Lemma rd16_le16 pre v rest :
  0 <= v < 2 ^ 16 -> rd16 (pre ++ le16 v ++ rest) (len pre) = v.
Proof.
  intros Hv. unfold le16. cbn [app]. rewrite rd16_app, !b2z_z2b.
  by apply le16_value.
Qed.

Lemma nz_crc32_range data : 0 <= nz_crc32 data < 2 ^ 32.
Proof. unfold nz_crc32, wrap32. apply Z.mod_pos_bound. lia. Qed.

(** ** Vector comparator versus byte-by-byte comparison *)

Lemma lane_bit_cmp l (c : bool) : lane_bit l (if c then xff else x00) = c.
Proof. by destruct l, c. Qed.

Lemma SIMD_WIDTH_range l : 8 <= SIMD_WIDTH l <= 32.
Proof. destruct l; cbn; lia. Qed.

Lemma lane_full_ones l : lane_full l = Z.ones (SIMD_WIDTH l).
Proof. by destruct l. Qed.

Lemma vec_cmp_load l data p q :
  VEC_CMP (VEC_LOAD l data p) (VEC_LOAD l data q)
  = map (fun i => if agree data p q (Z.of_nat i) then xff else x00)
        (seq 0 (Z.to_nat (SIMD_WIDTH l))).
Proof.
  unfold VEC_CMP, VEC_LOAD.
  generalize (Z.to_nat (SIMD_WIDTH l)) 0%nat. intros n.
  induction n as [|n IH]; intros k; cbn; [done|].
  by rewrite IH.
Qed.

Lemma shiftl_1_testbit i j :
  0 <= i -> 0 <= j -> Z.testbit (Z.shiftl 1 i) j = (i =? j).
Proof.
  intros Hi Hj. rewrite Z.shiftl_1_l. by apply Z.pow2_bits_eqb.
Qed.

Lemma movemask_from_testbit l (f : nat -> bool) n : forall k i m j,
  0 <= i -> 0 <= j ->
  Z.testbit
    (movemask_from l i (map (fun x => if f x then xff else x00) (seq k n)) m) j
  = Z.testbit m j
    || ((i <=? j) && (j <? i + Z.of_nat n) && f (k + Z.to_nat (j - i))%nat).
Proof.
  induction n as [|n IH]; intros k i m j Hi Hj; cbn [seq map movemask_from].
  - change (Z.of_nat 0) with 0. rewrite Z.add_0_r.
    destruct (Z.leb_spec i j), (Z.ltb_spec j i); try lia;
      cbn; by rewrite orb_false_r.
  - rewrite IH by lia. rewrite lane_bit_cmp.
    destruct (Z.eq_dec i j) as [->|Hne].
    + replace (Z.to_nat (j - j)) with 0%nat by lia. rewrite Nat.add_0_r.
      destruct (Z.leb_spec (j + 1) j); [lia|]. cbn [andb]. rewrite orb_false_r.
      destruct (Z.leb_spec j j); [|lia].
      destruct (Z.ltb_spec j (j + Z.of_nat (S n))); [|lia]. cbn [andb].
      destruct (f k); [|by rewrite orb_false_r].
      rewrite Z.lor_spec, shiftl_1_testbit, Z.eqb_refl by lia.
      by rewrite !orb_true_r.
    + assert (Z.testbit (if f k then Z.lor m (Z.shiftl 1 i) else m) j
              = Z.testbit m j) as ->.
      { destruct (f k); [|done].
        rewrite Z.lor_spec, shiftl_1_testbit by lia.
        destruct (Z.eqb_spec i j); [lia|]. by rewrite orb_false_r. }
      apply (f_equal (orb (Z.testbit m j))).
      destruct (Z.leb_spec (i + 1) j), (Z.leb_spec i j); try lia; cbn [andb].
      replace (i + 1 + Z.of_nat n) with (i + Z.of_nat (S n)) by lia.
      destruct (Z.ltb_spec j (i + Z.of_nat (S n))); [|done]. cbn [andb].
      apply (f_equal f). lia.
Qed.

(** Bit [j] of the mask says whether the spans agree at offset [j]. *)
Lemma mask_testbit l data p q j :
  0 <= j ->
  Z.testbit (VEC_MOVEMASK l (VEC_CMP (VEC_LOAD l data p) (VEC_LOAD l data q))) j
  = (j <? SIMD_WIDTH l) && agree data p q j.
Proof.
  intros Hj. rewrite vec_cmp_load. unfold VEC_MOVEMASK.
  rewrite (movemask_from_testbit l (fun i => agree data p q (Z.of_nat i)))
    by lia.
  pose proof (SIMD_WIDTH_range l).
  rewrite Z.testbit_0_l. cbn [orb].
  destruct (Z.leb_spec 0 j); [|lia]. cbn [andb].
  rewrite Z2Nat.id by lia. rewrite Z.add_0_l.
  destruct (j <? SIMD_WIDTH l); [|done]. cbn [andb].
  apply (f_equal (agree data p q)). lia.
Qed.

Lemma mask_full_iff l data p q :
  VEC_MOVEMASK l (VEC_CMP (VEC_LOAD l data p) (VEC_LOAD l data q)) = lane_full l
  <-> forall j, 0 <= j < SIMD_WIDTH l -> agree data p q j = true.
Proof.
  pose proof (SIMD_WIDTH_range l). rewrite lane_full_ones. split.
  - intros Hm j Hj.
    pose proof (mask_testbit l data p q j ltac:(lia)) as Hb.
    rewrite Hm, Z.testbit_ones_nonneg in Hb by lia.
    destruct (Z.ltb_spec j (SIMD_WIDTH l)); [|lia]. cbn [andb] in Hb. done.
  - intros Hall. apply Z.bits_inj'. intros j Hj.
    rewrite mask_testbit, Z.testbit_ones_nonneg by lia.
    destruct (Z.ltb_spec j (SIMD_WIDTH l)); [|done].
    rewrite Hall by lia. done.
Qed.

(** A bounded search for the first lane that differs. *)
Lemma first_false (f : Z -> bool) (n : nat) :
  (forall k, 0 <= k < Z.of_nat n -> f k = true)
  \/ exists j, 0 <= j < Z.of_nat n /\ f j = false
               /\ forall k, 0 <= k < j -> f k = true.
Proof.
  induction n as [|n [IH|(j & Hj & Hf & Hlow)]].
  - left. lia.
  - destruct (f (Z.of_nat n)) eqn:E.
    + left. intros k Hk. destruct (Z.eq_dec k (Z.of_nat n)) as [->|]; [done|].
      apply IH. lia.
    + right. exists (Z.of_nat n). split; [lia|]. split; [done|].
      intros k Hk. apply IH. lia.
  - right. exists j. split; [lia|]. done.
Qed.

Lemma ctz_from_first n : forall i x j,
  i <= j < i + Z.of_nat n -> Z.testbit x j = true ->
  (forall k, i <= k < j -> Z.testbit x k = false) ->
  ctz_from n i x = j.
Proof.
  induction n as [|n IH]; intros i x j Hj Hx Hlow; [lia|]. cbn [ctz_from].
  destruct (Z.eq_dec i j) as [->|Hne]; [by rewrite Hx|].
  rewrite Hlow by lia. apply IH; [lia|done|]. intros k Hk. apply Hlow. lia.
Qed.

Lemma land_shiftr_1 mask j :
  0 <= j -> (Z.land (Z.shiftr mask j) 1 =? 0) = negb (Z.testbit mask j).
Proof.
  intros Hj. change 1 with (Z.ones 1). rewrite Z.land_ones by lia.
  rewrite Z.shiftr_div_pow2 by lia. change (2 ^ 1) with 2.
  rewrite <- Z.testbit_spec' by lia. by destruct (Z.testbit mask j).
Qed.

Lemma scan_loop_first n : forall i mask len j,
  0 <= i -> i <= j < i + Z.of_nat n -> Z.testbit mask j = false ->
  (forall k, i <= k < j -> Z.testbit mask k = true) ->
  scan_loop n i mask len = len + j.
Proof.
  induction n as [|n IH]; intros i mask len j Hi Hj Hx Hlow; [lia|].
  cbn [scan_loop]. rewrite land_shiftr_1 by lia.
  destruct (Z.eq_dec i j) as [->|Hne]; [by rewrite Hx|].
  rewrite Hlow by lia. cbn [negb]. apply IH; [lia|lia|done|].
  intros k Hk. apply Hlow. lia.
Qed.

(** Both ways of locating the first differing lane give its index. *)
Lemma first_mismatch_spec bk mask len j :
  0 <= j < SIMD_WIDTH (bk_lanes bk) ->
  Z.testbit mask j = false ->
  (forall k, 0 <= k < j -> Z.testbit mask k = true) ->
  first_mismatch bk mask len = len + j.
Proof.
  intros Hj Hx Hlow. pose proof (SIMD_WIDTH_range (bk_lanes bk)).
  unfold first_mismatch. destruct (bk_scan bk).
  - f_equal. unfold builtin_ctz. apply ctz_from_first; [lia| |].
    + unfold wrap32. rewrite Z.testbit_mod_pow2, Z.lnot_spec, Hx by lia.
      destruct (Z.ltb_spec j 32); [done|lia].
    + intros k Hk. unfold wrap32.
      rewrite Z.testbit_mod_pow2, Z.lnot_spec, Hlow by lia.
      by rewrite andb_false_r.
  - apply scan_loop_first; [lia|lia|done|done].
Qed.

Lemma scalar_from_step data pos cand max_len len :
  len < max_len -> agree data pos cand len = true ->
  scalar_from data pos cand max_len len
  = scalar_from data pos cand max_len (len + 1).
Proof.
  intros Hlt Hag. unfold scalar_from.
  replace (Z.to_nat (max_len - len))
    with (S (Z.to_nat (max_len - (len + 1)))) by lia.
  cbn [scalar_prefix]. unfold agree in Hag. rewrite Hag.
  rewrite <- !Z.add_assoc. lia.
Qed.

Lemma scalar_from_stop data pos cand max_len len :
  max_len <= len \/ agree data pos cand len = false ->
  scalar_from data pos cand max_len len = len.
Proof.
  unfold scalar_from. intros [Hge|Hag].
  - replace (Z.to_nat (max_len - len)) with 0%nat by lia. cbn. lia.
  - destruct (Z.to_nat (max_len - len)); cbn [scalar_prefix]; [lia|].
    unfold agree in Hag. rewrite Hag. lia.
Qed.

Lemma scalar_from_skip data pos cand max_len (j : nat) : forall len,
  len + Z.of_nat j <= max_len ->
  (forall k, 0 <= k < Z.of_nat j -> agree data pos cand (len + k) = true) ->
  scalar_from data pos cand max_len len
  = scalar_from data pos cand max_len (len + Z.of_nat j).
Proof.
  induction j as [|j IH]; intros len Hle Hag.
  - by rewrite Z.add_0_r.
  - rewrite scalar_from_step; [|lia|].
    + rewrite IH; [f_equal; lia|lia|].
      intros k Hk. replace (len + 1 + k) with (len + (1 + k)) by lia.
      apply Hag. lia.
    + rewrite <- (Z.add_0_r len). apply Hag. lia.
Qed.

Lemma tail_loop_scalar data pos cand max_len fuel : forall len,
  max_len - len <= Z.of_nat fuel ->
  tail_loop fuel data pos cand max_len len
  = scalar_from data pos cand max_len len.
Proof.
  induction fuel as [|fuel IH]; intros len Hf; cbn [tail_loop].
  - rewrite scalar_from_stop; [done|lia].
  - destruct (Z.ltb_spec len max_len); cbn [andb].
    + fold (agree data pos cand len).
      destruct (agree data pos cand len) eqn:E.
      * rewrite IH by lia. by rewrite <- scalar_from_step.
      * by rewrite scalar_from_stop by auto.
    + rewrite scalar_from_stop; [done|lia].
Qed.

(** Whatever the vector loop returns, it has only skipped agreeing bytes. *)
Lemma vec_loop_skip bk data pos cand max_len fuel : forall len,
  0 <= len ->
  exists j : nat,
    vec_loop fuel bk data pos cand max_len len = len + Z.of_nat j
    /\ (j = 0%nat \/ len + Z.of_nat j <= max_len)
    /\ forall k, 0 <= k < Z.of_nat j -> agree data pos cand (len + k) = true.
Proof.
  induction fuel as [|fuel IH]; intros len Hlen; cbn [vec_loop].
  { exists 0%nat. split; [lia|]. split; [auto|]. lia. }
  set (l := bk_lanes bk). pose proof (SIMD_WIDTH_range l) as HW.
  destruct (Z.leb_spec (len + SIMD_WIDTH l) max_len) as [Hle|Hgt];
    [|exists 0%nat; split; [lia|]; split; [auto|]; lia].
  set (mask := VEC_MOVEMASK l _).
  assert (Hbit : forall j, 0 <= j < SIMD_WIDTH l ->
            Z.testbit mask j = agree data pos cand (len + j)).
  { intros j Hj. unfold mask. rewrite mask_testbit by lia.
    destruct (Z.ltb_spec j (SIMD_WIDTH l)); [|lia]. cbn [andb].
    unfold agree. by rewrite !Z.add_assoc. }
  destruct (Z.eqb_spec mask (lane_full l)) as [Hfull|Hnot]; cbn [negb].
  - pose proof (proj1 (mask_full_iff l data (pos + len) (cand + len)) Hfull)
      as Hall. clear Hfull. rename Hall into Hfull.
    destruct (IH (len + SIMD_WIDTH l) ltac:(lia)) as (j & Hres & Hb & Hag).
    exists (Z.to_nat (SIMD_WIDTH l) + j)%nat. split; [rewrite Hres; lia|].
    split; [right; lia|]. intros k Hk.
    destruct (Z.lt_ge_cases k (SIMD_WIDTH l)).
    + specialize (Hfull k ltac:(lia)). unfold agree in *.
      by rewrite <- !Z.add_assoc in Hfull.
    + replace (len + k) with (len + SIMD_WIDTH l + (k - SIMD_WIDTH l)) by lia.
      apply Hag. lia.
  - destruct (first_false (Z.testbit mask) (Z.to_nat (SIMD_WIDTH l)))
      as [Hall|(j & Hj & Hf & Hlow)].
    + exfalso. apply Hnot.
      apply (proj2 (mask_full_iff l data (pos + len) (cand + len))).
      intros j Hj.
      specialize (Hall j ltac:(lia)). rewrite Hbit in Hall by lia.
      unfold agree in *. by rewrite <- !Z.add_assoc.
    + exists (Z.to_nat j).
      rewrite (first_mismatch_spec bk mask len j) by (fold l; auto; lia).
      split; [lia|]. split; [right; lia|]. intros k Hk.
      rewrite <- Hbit by lia. apply Hlow. lia.
Qed.

Lemma match_length_scalar bk data pos cand max_len :
  match_length bk data pos cand max_len
  = scalar_prefix (Z.to_nat max_len) data pos cand.
Proof.
  unfold match_length.
  destruct (vec_loop_skip bk data pos cand max_len (Z.to_nat max_len) 0
              ltac:(lia)) as (j & Hres & Hb & Hag).
  rewrite Hres, Z.add_0_l.
  destruct Hb as [->|Hb].
  - rewrite tail_loop_scalar by lia. unfold scalar_from.
    by rewrite Z.sub_0_r, !Z.add_0_r, Z.add_0_l.
  - rewrite tail_loop_scalar by lia.
    rewrite <- (Z.add_0_l (Z.of_nat j)), <- scalar_from_skip; [|lia|done].
    unfold scalar_from. by rewrite Z.sub_0_r, !Z.add_0_r, Z.add_0_l.
Qed.

(** The bound [max_len] on the loop counters is an adequate fuel: more
    passes change nothing. *)
Lemma vec_loop_fuel bk data pos cand max_len f1 : forall f2 len,
  0 <= len -> max_len - len <= Z.of_nat f1 -> max_len - len <= Z.of_nat f2 ->
  vec_loop f1 bk data pos cand max_len len
  = vec_loop f2 bk data pos cand max_len len.
Proof.
  pose proof (SIMD_WIDTH_range (bk_lanes bk)) as HW.
  induction f1 as [|f1 IH]; intros f2 len Hlen H1 H2.
  - destruct f2; cbn [vec_loop]; [done|].
    destruct (Z.leb_spec (len + SIMD_WIDTH (bk_lanes bk)) max_len); [lia|done].
  - destruct f2; cbn [vec_loop].
    + destruct (Z.leb_spec (len + SIMD_WIDTH (bk_lanes bk)) max_len); [lia|done].
    + destruct (Z.leb_spec (len + SIMD_WIDTH (bk_lanes bk)) max_len); [|done].
      destruct (negb _); [done|]. apply IH; lia.
Qed.

Lemma scalar_prefix_range n data p q :
  0 <= scalar_prefix n data p q <= Z.of_nat n.
Proof.
  revert p q. induction n as [|n IH]; intros p q; cbn [scalar_prefix]; [lia|].
  destruct (_ =? _); [|lia]. specialize (IH (p + 1) (q + 1)). lia.
Qed.

Lemma scalar_prefix_agree n data : forall p q k,
  0 <= k < scalar_prefix n data p q -> getb data (p + k) = getb data (q + k).
Proof.
  induction n as [|n IH]; intros p q k Hk; cbn [scalar_prefix] in Hk; [lia|].
  destruct (Z.eqb_spec (b2z (getb data p)) (b2z (getb data q))) as [E|]; [|lia].
  destruct (Z.eq_dec k 0) as [->|].
  - rewrite !Z.add_0_r. by apply b2z_inj.
  - replace (p + k) with (p + 1 + (k - 1)) by lia.
    replace (q + k) with (q + 1 + (k - 1)) by lia.
    apply IH. lia.
Qed.

(** ** Match finder *)

Lemma nz_init_window w :
  window_size (nz_init w)
  = if (MIN_WINDOW <=? w) && (w <=? MAX_WINDOW) then w else DEFAULT_WINDOW.
Proof.
  unfold nz_init. cbn [window_size].
  change MIN_WINDOW with 1024. change MAX_WINDOW with 65535.
  change DEFAULT_WINDOW with 65535.
  destruct (Z.ltb_spec w 1024), (Z.leb_spec 1024 w); try lia; cbn [andb].
  - done.
  - destruct (Z.gtb_spec w 65535), (Z.leb_spec w 65535); try lia; done.
Qed.

Lemma nz_init_wf w : wf_state (nz_init w).
Proof.
  pose proof (nz_init_window w) as Hw.
  assert (MIN_WINDOW <= window_size (nz_init w) <= MAX_WINDOW) as Hr.
  { rewrite Hw. change MIN_WINDOW with 1024. change MAX_WINDOW with 65535.
    change DEFAULT_WINDOW with 65535.
    destruct (Z.leb_spec 1024 w), (Z.leb_spec w 65535); cbn [andb]; lia. }
  split; [| |done| |]; unfold nz_init in *; cbn [head chain window_size] in *.
  - by rewrite length_replicate.
  - by rewrite length_replicate.
  - apply Forall_replicate. unfold entry_ok. lia.
  - apply Forall_replicate. unfold entry_ok. lia.
Qed.

Lemma tbl_get_ok t i : Forall entry_ok t -> entry_ok (tbl_get t i).
Proof.
  intros Ht. unfold tbl_get. destruct (t !! Z.to_nat i) eqn:E; cbn.
  - eapply Forall_lookup_1; eauto.
  - unfold entry_ok. lia.
Qed.

Lemma tbl_set_ok t i v :
  Forall entry_ok t -> entry_ok v -> Forall entry_ok (tbl_set t i v).
Proof. intros Ht Hv. unfold tbl_set. by apply Forall_insert. Qed.

Lemma tbl_get_set_eq t i v :
  0 <= i < Z.of_nat (length t) -> tbl_get (tbl_set t i v) i = v.
Proof.
  intros Hi. unfold tbl_get, tbl_set.
  by rewrite list_lookup_insert_eq by lia.
Qed.

Lemma tbl_get_set_ne t i j v :
  0 <= i -> 0 <= j -> i <> j -> tbl_get (tbl_set t i v) j = tbl_get t j.
Proof.
  intros Hi Hj Hne. unfold tbl_get, tbl_set.
  by rewrite list_lookup_insert_ne by lia.
Qed.

Lemma hash3_range data pos : 0 <= hash3 data pos < Z.shiftl 1 HASH_BITS.
Proof.
  unfold hash3. set (h := Z.lor _ _). unfold wrap32.
  pose proof (Z.mod_pos_bound (h * 0x9E3779B1) (2 ^ 32) ltac:(lia)) as Hm.
  change (32 - HASH_BITS) with 18. change (Z.shiftl 1 HASH_BITS) with 16384.
  rewrite Z.shiftr_div_pow2 by lia. change (2 ^ 18) with 262144.
  change (2 ^ 32) with 4294967296 in *.
  split; [apply Z.div_pos; lia|]. apply Z.div_lt_upper_bound; lia.
Qed.

Lemma search_good bk data pos end_ st fuel : forall cand best_len best_cand,
  0 <= pos < 2 ^ 64 ->
  window_size st <= MAX_WINDOW ->
  Forall entry_ok (chain st) -> entry_ok cand ->
  (MIN_MATCH <= best_len ->
   good_match data pos end_ (window_size st) best_len best_cand) ->
  forall len c,
    search fuel bk data pos end_ st cand best_len best_cand = (len, c) ->
    MIN_MATCH <= len -> good_match data pos end_ (window_size st) len c.
Proof.
  induction fuel as [|fuel IH];
    intros cand best_len best_cand Hpos Hw Hch Hcand Hbest len c Hs Hlen;
    cbn [search] in Hs.
  { inversion Hs; subst. auto. }
  destruct (Z.eqb_spec cand 0) as [|Hc0]; [inversion Hs; subst; auto|].
  pose proof (tbl_get_ok (chain st) (cand mod window_size st) Hch) as Hnext.
  destruct (Z.eqb_spec cand pos) as [|Hcp];
    [exact (IH _ _ _ Hpos Hw Hch Hnext Hbest _ _ Hs Hlen)|].
  destruct (Z.gtb_spec (wrap64 (pos - cand)) (window_size st)) as [|Hd];
    [inversion Hs; subst; auto|].
  assert (1 <= cand < pos /\ pos - cand <= window_size st) as [Hc1 Hc2].
  { unfold entry_ok in Hcand. unfold wrap64 in Hd.
    change MAX_WINDOW with 65535 in Hw.
    change (2 ^ 64) with 18446744073709551616 in *.
    change (2 ^ 32) with 4294967296 in *.
    destruct (Z.lt_ge_cases cand pos).
    - rewrite Z.mod_small in Hd by lia. lia.
    - exfalso.
      replace (pos - cand) with ((pos - cand + 18446744073709551616)
                                 + (-1) * 18446744073709551616) in Hd by lia.
      rewrite Z.mod_add in Hd by lia. rewrite Z.mod_small in Hd by lia. lia. }
  set (max_len := if end_ - pos <? MAX_MATCH then end_ - pos else MAX_MATCH)
    in Hs.
  rewrite match_length_scalar in Hs.
  set (l := scalar_prefix (Z.to_nat max_len) data pos cand) in Hs.
  assert (MIN_MATCH <= l -> good_match data pos end_ (window_size st) l cand)
    as Hnew.
  { intros Hl. pose proof (scalar_prefix_range (Z.to_nat max_len) data pos cand)
      as Hr. fold l in Hr.
    assert (l <= max_len) by (unfold MIN_MATCH in Hl; lia).
    assert (max_len <= MAX_MATCH /\ max_len <= end_ - pos) as [? ?].
    { unfold max_len. destruct (Z.ltb_spec (end_ - pos) MAX_MATCH); lia. }
    split; try lia. intros k Hk. by apply scalar_prefix_agree with (n := Z.to_nat max_len). }
  destruct ((l >? best_len) && (l >=? MIN_MATCH)) eqn:Eb.
  - apply andb_true_iff in Eb as [_ Hge].
    assert (MIN_MATCH <= l) as Hl by lia.
    destruct (l >=? MAX_MATCH).
    + inversion Hs; subst. auto.
    + exact (IH _ _ _ Hpos Hw Hch Hnext Hnew _ _ Hs Hlen).
  - exact (IH _ _ _ Hpos Hw Hch Hnext Hbest _ _ Hs Hlen).
Qed.

Lemma find_match_short bk data pos end_ st :
  pos + MIN_MATCH > end_ -> find_match bk data pos end_ st = (0, 0, st).
Proof.
  intros H. unfold find_match.
  destruct (Z.gtb_spec (pos + MIN_MATCH) end_); [done|lia].
Qed.

Lemma find_match_state bk data pos end_ st :
  pos + MIN_MATCH <= end_ ->
  (find_match bk data pos end_ st).2 = recorded data pos st.
Proof.
  intros H. unfold find_match.
  destruct (Z.gtb_spec (pos + MIN_MATCH) end_); [lia|].
  cbn [head chain window_size]. by destruct (search _ _ _ _ _ _ _ _ _).
Qed.

Lemma wrap32_ok z : entry_ok (wrap32 z).
Proof. unfold entry_ok, wrap32. apply Z.mod_pos_bound. lia. Qed.

Lemma recorded_wf data pos st : wf_state st -> wf_state (recorded data pos st).
Proof.
  intros [H1 H2 H3 H4 H5]. split; cbn [recorded head chain window_size].
  - unfold tbl_set. by rewrite length_insert.
  - unfold tbl_set. by rewrite length_insert.
  - done.
  - apply tbl_set_ok; [done|apply wrap32_ok].
  - apply tbl_set_ok; [done|by apply tbl_get_ok].
Qed.

Lemma find_match_wf bk data pos end_ st :
  wf_state st ->
  wf_state (find_match bk data pos end_ st).2
  /\ window_size (find_match bk data pos end_ st).2 = window_size st.
Proof.
  intros Hwf. destruct (Z.lt_ge_cases end_ (pos + MIN_MATCH)).
  - rewrite find_match_short by lia. done.
  - rewrite find_match_state by lia. split; [by apply recorded_wf|done].
Qed.

Lemma find_match_good bk data pos end_ st len c st' :
  0 <= pos < 2 ^ 64 -> wf_state st ->
  find_match bk data pos end_ st = (len, c, st') ->
  MIN_MATCH <= len ->
  good_match data pos end_ (window_size st) len c.
Proof.
  intros Hpos Hwf Hfm Hlen. unfold find_match in Hfm.
  destruct (pos + MIN_MATCH >? end_).
  { inversion Hfm; subst. unfold MIN_MATCH in Hlen. lia. }
  cbn [head chain window_size] in Hfm.
  destruct (search _ _ _ _ _ _ _ _ _) as [bl bc] eqn:Es.
  inversion Hfm; subst. destruct Hwf as [H1 H2 H3 H4 H5].
  eapply (search_good _ _ _ _ _ _ _ _ _ Hpos) in Es; cbn [window_size chain];
    try done; [lia | by apply tbl_get_ok].
Qed.

(** ** Decoder: bounds of the accesses to the output buffer *)

Lemma emit_ok D s v :
  dinv D s -> d_pos s < D ->
  exists s', emit s v = Some s'
    /\ d_in s' = d_in s /\ d_pos s' = d_pos s + 1
    /\ d_out s' = <[Z.to_nat (d_pos s) := v]> (d_out s)
    /\ dinv D s'.
Proof.
  intros [Hp Hc Hw Hr] Hlt. unfold emit.
  destruct (Z.leb_spec 0 (d_pos s)); [|lia].
  destruct (Z.ltb_spec (d_pos s) (len (d_out s))); [|lia]. cbn [andb].
  eexists. split; [done|]. cbn [d_in d_pos d_out d_log].
  do 3 (split; [done|]).
  constructor; cbn [d_in d_pos d_out d_log log_ok]; [lia| | |done].
  - unfold len in *. by rewrite length_insert.
  - intros i. split.
    + intros [E|Hin]; [inversion E; lia|]. apply Hw in Hin. lia.
    + intros Hi. destruct (Z.eq_dec i (d_pos s)) as [->|]; [by left|].
      right. apply Hw. lia.
Qed.

Lemma load_ok D s i :
  dinv D s -> 0 <= i < d_pos s ->
  exists s', load s i = Some (getb (d_out s) i, s')
    /\ d_in s' = d_in s /\ d_pos s' = d_pos s /\ d_out s' = d_out s
    /\ dinv D s'.
Proof.
  intros [Hp Hc Hw Hr] Hi. unfold load.
  destruct (Z.leb_spec 0 i); [|lia].
  destruct (Z.ltb_spec i (len (d_out s))); [|lia]. cbn [andb].
  eexists. split; [done|]. cbn [d_in d_pos d_out d_log].
  do 3 (split; [done|]).
  constructor; cbn [d_in d_pos d_out d_log log_ok]; [lia|lia| |].
  - intros j. split.
    + intros [E|Hin]; [inversion E|]. by apply Hw.
    + intros Hj. right. by apply Hw.
  - split; [|done]. by apply Hw.
Qed.

(** The match copy: it stays inside the buffer, leaves the bytes below
    [out_pos] alone, and makes every new byte equal to the byte [dist]
    places before it. *)
Lemma copy_match_ok D dist n : forall s,
  dinv D s -> 1 <= dist <= d_pos s -> d_pos s + Z.of_nat n <= D ->
  exists s', copy_match n dist s = Some s'
    /\ d_in s' = d_in s /\ d_pos s' = d_pos s + Z.of_nat n
    /\ length (d_out s') = length (d_out s)
    /\ dinv D s'
    /\ (forall i, 0 <= i < d_pos s -> getb (d_out s') i = getb (d_out s) i)
    /\ (forall k, 0 <= k < Z.of_nat n ->
          getb (d_out s') (d_pos s + k) = getb (d_out s') (d_pos s + k - dist)).
Proof.
  induction n as [|n IH]; intros s Hinv Hdist Hend; cbn [copy_match].
  { exists s. change (Z.of_nat 0) with 0. rewrite Z.add_0_r.
    do 5 (split; [done|]). split; [done|]. intros k Hk. lia. }
  destruct (load_ok D s (d_pos s - dist) Hinv ltac:(lia))
    as (s1 & -> & Hin1 & Hpos1 & Hout1 & Hinv1).
  cbn [mbind option_bind].
  destruct (emit_ok D s1 (getb (d_out s) (d_pos s - dist)) Hinv1 ltac:(lia))
    as (s2 & -> & Hin2 & Hpos2 & Hout2 & Hinv2).
  cbn [mbind option_bind].
  destruct (IH s2 Hinv2 ltac:(lia) ltac:(lia))
    as (s' & -> & Hin' & Hpos' & Hlen' & Hinv' & Hlow & Hnew).
  assert (Hcap : d_pos s < len (d_out s)) by (destruct Hinv; lia).
  assert (Hlow' : forall i, 0 <= i < d_pos s ->
            getb (d_out s') i = getb (d_out s) i).
  { intros i Hi. rewrite Hlow by lia. rewrite Hout2, Hpos1, Hout1.
    apply getb_insert_ne; lia. }
  exists s'. split; [done|]. split; [congruence|]. split; [lia|].
  split; [by rewrite Hlen', Hout2, length_insert, Hout1|].
  split; [done|]. split; [done|].
  intros k Hk. destruct (Z.eq_dec k 0) as [->|Hk0].
  - rewrite Z.add_0_r. rewrite Hlow by lia.
    rewrite Hout2, Hpos1, Hout1, getb_insert_eq by lia.
    by rewrite Hlow' by lia.
  - replace (d_pos s + k) with (d_pos s2 + (k - 1)) by lia. apply Hnew. lia.
Qed.

Lemma dinv_advance D s rest : dinv D s -> dinv D (advance s rest).
Proof. intros [H1 H2 H3 H4]. by constructor. Qed.

Lemma copy_match_in n dist : forall s s',
  copy_match n dist s = Some s' -> d_in s' = d_in s.
Proof.
  induction n as [|n IH]; intros s s' H; cbn [copy_match] in H.
  { by inversion H. }
  unfold load in H. destruct (_ && _); [|done]. cbn [mbind option_bind] in H.
  unfold emit in H. cbn [d_in d_pos d_out d_log] in H.
  destruct (_ && _); [|done]. cbn [mbind option_bind] in H.
  by apply IH in H.
Qed.

Lemma emit_in s v s' : emit s v = Some s' -> d_in s' = d_in s.
Proof. unfold emit. destruct (_ && _); [|done]. by inversion 1. Qed.

(** Each pass that continues consumes input. *)
Lemma dec_body_consumes D s s1 :
  dec_body D s = DNext s1 -> (length (d_in s1) < length (d_in s))%nat.
Proof.
  unfold dec_body. destruct (d_in s) as [|b rest] eqn:Ein; [done|].
  destruct (b2z b =? 191).
  { destruct rest as [|v rest']; [done|].
    destruct (emit _ _) eqn:E; [|done]. cbn [dnext]. inversion 1; subst.
    apply emit_in in E. rewrite E. cbn. lia. }
  destruct (b2z b =? 192).
  { destruct rest as [|b1 [|b2 [|b3 rest']]]; try done.
    destruct (_ >? _); [done|]. destruct (_ || _); [done|].
    destruct (copy_match _ _ _) eqn:E; [|done]. cbn. inversion 1; subst.
    cbn. lia. }
  destruct (emit _ _) eqn:E; [|done]. cbn [dnext]. inversion 1; subst.
  apply emit_in in E. rewrite E. cbn. lia.
Qed.

Lemma dist_value b1 b2 :
  Z.lor (b2z b1) (Z.shiftl (b2z b2) 8) = b2z b1 + 2 ^ 8 * b2z b2.
Proof.
  pose proof (b2z_range b1). pose proof (b2z_range b2).
  assert (Z.land (b2z b1) (Z.shiftl (b2z b2) 8) = 0) as Hd.
  { apply Z.bits_inj'. intros n Hn. rewrite Z.land_spec, Z.bits_0.
    destruct (Z.lt_ge_cases n 8).
    - rewrite Z.shiftl_spec_low by lia. apply andb_false_r.
    - rewrite (Z.bits_above_log2 (b2z b1)); [done|lia|].
      destruct (Z.eq_dec (b2z b1) 0) as [->|]; [cbn; lia|].
      apply Z.log2_lt_pow2; [lia|]. 
      apply Z.lt_le_trans with (2 ^ 8); [lia|]. apply Z.pow_le_mono_r; lia. }
  rewrite <- Z.add_nocarry_lor by done. rewrite Z.shiftl_mul_pow2 by lia. lia.
Qed.

Lemma dist_range b1 b2 : 0 <= Z.lor (b2z b1) (Z.shiftl (b2z b2) 8) < 2 ^ 16.
Proof.
  rewrite dist_value. pose proof (b2z_range b1). pose proof (b2z_range b2).
  change (2 ^ 8) with 256. change (2 ^ 16) with 65536. lia.
Qed.

(** A pass of the decoder loop never leaves the buffer; when it continues,
    the invariant holds again and, for a match token, the token was within
    the bounds the decoder checks. *)
Lemma dec_body_safe D s :
  dinv D s -> d_pos s < D ->
  match dec_body D s with
  | DNext s1 =>
      dinv D s1 /\ length (d_out s1) = length (d_out s)
      /\ d_pos s < d_pos s1
  | DBreak => True
  | DFault => False
  end.
Proof.
  intros Hinv Hlt. unfold dec_body.
  destruct (d_in s) as [|b rest] eqn:Ein; [done|].
  destruct (b2z b =? 191).
  { destruct rest as [|v rest']; [done|].
    destruct (emit_ok D (advance s rest') v (dinv_advance D s rest' Hinv) Hlt)
      as (s1 & -> & _ & Hp & Ho & Hi). cbn [dnext].
    split; [done|]. rewrite Ho, Hp, length_insert. cbn. split; [done|lia]. }
  destruct (b2z b =? 192).
  { destruct rest as [|b1 [|b2 [|b3 rest']]]; try done.
    destruct (Z.gtb_spec (b2z b3 + MIN_MATCH) MAX_MATCH); [done|].
    pose proof (dist_range b1 b2) as Hd.
    pose proof (b2z_range b3) as Hb3.
    set (dist := Z.lor _ _) in *.
    destruct (Z.eqb_spec dist 0); [done|].
    destruct (Z.gtb_spec dist (d_pos s)); [done|].
    destruct (Z.gtb_spec (d_pos s + (b2z b3 + MIN_MATCH)) D); [done|].
    cbn [orb]. unfold MIN_MATCH in *.
    destruct (copy_match_ok D dist (Z.to_nat (b2z b3 + 3)) s Hinv
                ltac:(lia) ltac:(lia))
      as (s1 & -> & _ & Hp & Hl & Hi & _ & _).
    cbn. split; [by apply dinv_advance|]. split; [done|lia]. }
  destruct (emit_ok D (advance s rest) b (dinv_advance D s rest Hinv) Hlt)
    as (s1 & -> & _ & Hp & Ho & Hi). cbn [dnext].
  split; [done|]. rewrite Ho, Hp, length_insert. cbn. split; [done|lia].
Qed.

(** A match token that the loop applies is within the checked bounds. *)
Lemma dec_body_match D s s1 len dist :
  dec_body D s = DNext s1 -> match_token s = Some (len, dist) ->
  MIN_MATCH <= len <= MAX_MATCH /\ 1 <= dist <= d_pos s /\ dist < 2 ^ 16
  /\ d_pos s + len <= D /\ d_pos s1 = d_pos s + len.
Proof.
  unfold dec_body, match_token.
  destruct (d_in s) as [|b [|b1 [|b2 [|b3 rest']]]]; try done.
  destruct (Z.eqb_spec (b2z b) 192) as [E|]; [|done].
  rewrite E. cbn [Z.eqb Pos.eqb].
  intros Hb Ht. inversion Ht; subst. clear Ht.
  pose proof (dist_range b1 b2) as Hd. pose proof (b2z_range b3) as Hb3.
  set (dist := Z.lor _ _) in *.
  destruct (Z.gtb_spec (b2z b3 + MIN_MATCH) MAX_MATCH); [done|].
  destruct (Z.eqb_spec dist 0); [done|].
  destruct (Z.gtb_spec dist (d_pos s)); [done|].
  destruct (Z.gtb_spec (d_pos s + (b2z b3 + MIN_MATCH)) D); [done|].
  cbn [orb] in Hb. unfold MIN_MATCH in *.
  destruct (copy_match _ _ _) as [s'|] eqn:Ec; [|done].
  cbn in Hb. inversion Hb; subst. cbn [d_pos advance].
  assert (d_pos s' = d_pos s + (b2z b3 + 3)); [|lia].
  clear -Ec Hb3. 
  assert (forall n s s', copy_match n dist s = Some s' ->
            d_pos s' = d_pos s + Z.of_nat n) as Hgen.
  { clear. induction n as [|n IH]; intros s s' H; cbn [copy_match] in H.
    - inversion H. lia.
    - unfold load in H. destruct (_ && _); [|done].
      cbn [mbind option_bind] in H. unfold emit in H.
      cbn [d_in d_pos d_out d_log] in H. destruct (_ && _); [|done].
      cbn [mbind option_bind] in H. apply IH in H. cbn [d_pos] in H. lia. }
  apply Hgen in Ec. lia.
Qed.

(** A match token outside the checked bounds stops the loop. *)
Lemma dec_body_reject D s len dist :
  match_token s = Some (len, dist) ->
  dist = 0 \/ dist > d_pos s \/ d_pos s + len > D \/ len > MAX_MATCH ->
  dec_body D s = DBreak.
Proof.
  unfold dec_body, match_token.
  destruct (d_in s) as [|b [|b1 [|b2 [|b3 rest']]]]; try done.
  destruct (Z.eqb_spec (b2z b) 192) as [E|]; [|done].
  rewrite E. cbn [Z.eqb Pos.eqb].
  intros Ht Hbad. inversion Ht; subst. clear Ht.
  set (dist := Z.lor _ _) in *.
  destruct (Z.gtb_spec (b2z b3 + MIN_MATCH) MAX_MATCH); [done|].
  destruct (Z.eqb_spec dist 0); [done|].
  destruct (Z.gtb_spec dist (d_pos s)); [done|].
  destruct (Z.gtb_spec (d_pos s + (b2z b3 + MIN_MATCH)) D); [done|].
  lia.
Qed.

Lemma dec_body_cut D s : cut_token (d_in s) -> dec_body D s = DBreak.
Proof.
  unfold dec_body, cut_token. destruct (d_in s) as [|b rest]; [done|].
  intros [[-> ->]|[-> Hl]]; [done|]. cbn [Z.eqb Pos.eqb].
  destruct rest as [|b1 [|b2 [|b3 rest']]]; try done. cbn in Hl. lia.
Qed.

(** The loop: it returns a state, that state is one the passes lead to, and
    with the fuel [nanozip_decompress] gives it stops only where the C loop
    stops. *)
Lemma dec_loop_ok D fuel : forall s,
  dinv D s ->
  exists s', dec_loop fuel D s = Some s'
    /\ dinv D s' /\ dec_reach D s s'
    /\ length (d_out s') = length (d_out s)
    /\ ((length (d_in s) <= fuel)%nat ->
        loop_cond D s' = false \/ dec_body D s' = DBreak).
Proof.
  induction fuel as [|fuel IH]; intros s Hinv; cbn [dec_loop].
  { exists s. split; [done|]. split; [done|]. split; [constructor|].
    split; [done|]. intros Hl. left. unfold loop_cond, len.
    destruct (d_in s); [done|cbn in Hl; lia]. }
  fold (loop_cond D s). destruct (loop_cond D s) eqn:Ec.
  2:{ exists s. split; [done|]. split; [done|]. split; [constructor|]. auto. }
  apply andb_true_iff in Ec as [Hin Hpos].
  apply Z.ltb_lt in Hin, Hpos.
  pose proof (dec_body_safe D s Hinv Hpos) as Hsafe.
  pose proof (dec_body_consumes D s) as Hcons.
  destruct (dec_body D s) as [s1| |] eqn:Eb; [| |done].
  - destruct Hsafe as (Hinv1 & Hlen1 & _).
    destruct (IH s1 Hinv1) as (s' & -> & Hinv' & Hreach & Hlen' & Hexit).
    exists s'. split; [done|]. split; [done|].
    split; [by apply dec_reach_step with s1|]. split; [congruence|].
    intros Hl. apply Hexit. specialize (Hcons s1 eq_refl). lia.
  - exists s. split; [done|]. split; [done|]. split; [constructor|]. auto.
Qed.

(** The passes are deterministic: a state at which the loop stops, reached
    by passes, is the state the loop returns. *)
Lemma dec_loop_reach D s s' :
  dec_reach D s s' ->
  loop_cond D s' = false \/ dec_body D s' = DBreak ->
  forall fuel, (length (d_in s) <= fuel)%nat -> dec_loop fuel D s = Some s'.
Proof.
  induction 1 as [s|s s1 s2 Hin Hpos Hb Hreach IH]; intros Hstop fuel Hf.
  - destruct fuel; cbn [dec_loop]; [done|]. fold (loop_cond D s).
    destruct Hstop as [->| ->]; [done|]. by destruct (loop_cond D s).
  - pose proof (dec_body_consumes D s s1 Hb) as Hcons.
    destruct fuel; [lia|]. cbn [dec_loop].
    destruct (Z.ltb_spec 0 (len (d_in s))); [|lia].
    destruct (Z.ltb_spec (d_pos s) D); [|lia]. cbn [andb].
    rewrite Hb. apply IH; [done|lia].
Qed.

Lemma rd32_nonneg data off : 0 <= rd32 data off.
Proof.
  unfold rd32.
  pose proof (b2z_range (getb data off)).
  pose proof (b2z_range (getb data (off + 1))).
  pose proof (b2z_range (getb data (off + 2))).
  pose proof (b2z_range (getb data (off + 3))). lia.
Qed.

Lemma rd16_range data off : 0 <= rd16 data off < 2 ^ 16.
Proof.
  unfold rd16.
  pose proof (b2z_range (getb data off)).
  pose proof (b2z_range (getb data (off + 1))).
  change (2 ^ 8) with 256. change (2 ^ 16) with 65536. lia.
Qed.

Lemma dec_init_inv input output D :
  0 <= D <= len output -> dinv D (dec_init input output).
Proof.
  intros HD. constructor; cbn [dec_init d_pos d_out d_log log_ok];
    [lia|lia| |done].
  intros i. split; [done|lia].
Qed.

Lemma dec_reach_inv D s t : dec_reach D s t -> dinv D s -> dinv D t.
Proof.
  induction 1 as [s|s s1 s2 Hin Hpos Hb Hreach IH]; intros Hinv; [done|].
  apply IH. pose proof (dec_body_safe D s Hinv Hpos) as Hs.
  rewrite Hb in Hs. tauto.
Qed.

Lemma log_ok_read log i : log_ok log -> In (Read i) log -> In (Write i) log.
Proof.
  induction log as [|[j|j] log IH]; cbn [log_ok In]; [done| |].
  - intros Hok [E|Hin]; [done|]. right. by apply IH.
  - intros [Hw Hok] [E|Hin]; right; [by inversion E; subst|by apply IH].
Qed.

Lemma log_ok_reads (n : nat) log :
  log_ok log -> (forall i, (i < n)%nat -> In (Write (Z.of_nat i)) log) ->
  log_ok (rev (map (fun i => Read (Z.of_nat i)) (seq 0 n)) ++ log).
Proof.
  intros Hok. induction n as [|n IH]; intros Hw; [done|].
  rewrite seq_S, map_app, rev_app_distr. cbn [map rev app plus log_ok].
  split; [|apply IH; intros i Hi; apply Hw; lia].
  apply in_or_app. right. apply Hw. lia.
Qed.

Lemma load_span_ok D s :
  dinv D s -> d_pos s = D ->
  exists s', load_span s D = Some (take (Z.to_nat D) (d_out s), s')
    /\ d_out s' = d_out s /\ d_pos s' = d_pos s /\ log_ok (d_log s')
    /\ (forall i, In (Write i) (d_log s') <-> In (Write i) (d_log s)).
Proof.
  intros [Hp Hc Hw Hr] HD. unfold load_span.
  destruct (Z.leb_spec D (len (d_out s))); [|lia].
  eexists. split; [done|]. cbn [d_out d_pos d_log].
  split; [done|]. split; [done|]. split.
  - apply log_ok_reads; [done|]. intros i Hi. apply Hw. lia.
  - intros i. rewrite in_app_iff. split; [|auto].
    intros [Hin|Hin]; [|done]. apply in_rev in Hin.
    apply in_map_iff in Hin as (j & E & _). done.
Qed.

(** The run of [nanozip_decompress] on a buffer of the announced capacity:
    it always returns; with a refused header at once, and otherwise after
    the token loop, from the state [t] in which the loop stops. *)
Lemma decompress_run_spec input output out_size :
  out_size <= len output ->
  (header_ok input out_size = false
   /\ decompress_run input output out_size = Some (0, dec_init input output))
  \/ (header_ok input out_size = true
      /\ exists t s,
          decompress_run input output out_size = Some (verdict input t, s)
          /\ dec_reach (hdr_size input) (dec_init input output) t
          /\ (loop_cond (hdr_size input) t = false
              \/ dec_body (hdr_size input) t = DBreak)
          /\ dinv (hdr_size input) t
          /\ d_out s = d_out t /\ d_pos s = d_pos t
          /\ length (d_out t) = length output
          /\ log_ok (d_log s)
          /\ (forall i, In (Write i) (d_log s) <-> 0 <= i < d_pos t)).
Proof.
  intros Hcap. destruct (header_ok input out_size) eqn:Hh.
  2:{ left. split; [done|]. unfold decompress_run, header_ok in *.
      destruct (len input <? 14); [done|].
      destruct (hdr_magic input =? NZ_MAGIC); [|done].
      by destruct (_ || _). }
  right. split; [done|]. unfold header_ok in Hh.
  apply andb_true_iff in Hh as [Hh Hw]. apply andb_true_iff in Hh as [Hl Hm].
  unfold decompress_run. 
  destruct (len input <? 14); [done|]. rewrite Hm. cbn [negb].
  destruct (_ || _) eqn:Hchk; [done|].
  apply orb_false_iff in Hchk as [_ Hsz].
  pose proof (rd32_nonneg input 4) as Hnn. fold (hdr_size input) in Hnn.
  assert (hdr_size input <= out_size) as Hle
    by (destruct (Z.gtb_spec (hdr_size input) out_size); [done|lia]).
  set (D := hdr_size input) in *.
  destruct (dec_loop_ok D (length (d_in (dec_init input output)))
              (dec_init input output)
              (dec_init_inv input output D ltac:(lia)))
    as (t & -> & Hinv & Hreach & Hlen & Hexit).
  cbn [mbind option_bind]. specialize (Hexit (le_n _)).
  exists t. unfold verdict. fold D.
  destruct (Z.eqb_spec (d_pos t) D) as [HD|HD]; cbn [negb andb].
  - destruct (load_span_ok D t Hinv HD) as (s & -> & Ho & Hp & Hlog & Hwr).
    cbn [mbind option_bind].
    exists s. split; [by destruct (nz_crc32 _ =? _)|].
    do 6 (split; [done|]). split; [done|].
    intros i. rewrite Hwr. apply Hinv.
  - exists t. do 7 (split; [done|]). split; apply Hinv.
Qed.

(** ** The decoder's answers *)

(** When the loop stops on a [break], fewer bytes than announced were
    produced, and the function returns 0. *)
Lemma verdict_break input t :
  d_pos t < hdr_size input -> verdict input t = 0.
Proof.
  intros H. unfold verdict.
  destruct (Z.eqb_spec (d_pos t) (hdr_size input)); [lia|done].
Qed.

Lemma loop_cond_pos D t : loop_cond D t = true -> d_pos t < D.
Proof.
  unfold loop_cond. intros H. apply andb_true_iff in H as [_ H].
  by apply Z.ltb_lt.
Qed.

(** A reachable state at which the loop condition holds and the body
    leaves the loop is the state in which the run ends. *)
Lemma run_stops_at input output out_size t :
  out_size <= len output ->
  header_ok input out_size = true ->
  dec_reach (hdr_size input) (dec_init input output) t ->
  loop_cond (hdr_size input) t = true ->
  dec_body (hdr_size input) t = DBreak ->
  exists s, decompress_run input output out_size = Some (0, s).
Proof.
  intros Hcap Hh Hreach Hc Hb.
  destruct (decompress_run_spec input output out_size Hcap)
    as [[Hh' _]|(_ & t' & s & Hrun & Hreach' & Hstop' & _)]; [congruence|].
  pose proof (dec_loop_reach _ _ _ Hreach (or_intror Hb) _ (le_n _)) as H1.
  pose proof (dec_loop_reach _ _ _ Hreach' Hstop' _ (le_n _)) as H2.
  assert (t' = t) as -> by congruence.
  exists s. rewrite Hrun. by rewrite verdict_break by by apply loop_cond_pos.
Qed.

(** C10. Once the header is accepted, every write of nanozip_decompress to
    the output buffer is at an index below the announced size, every match
    that is copied has 1 <= dist <= out_pos, every read is of an index
    written earlier in the same run, and no access leaves the buffer, on
    any input. *)
Theorem decompress_in_bounds input output out_size :
  out_size <= len output ->
  exists r s,
    decompress_run input output out_size = Some (r, s)
    /\ length (d_out s) = length output
    /\ (forall i, In (Write i) (d_log s) ->
          0 <= i < hdr_size input /\ i < len output)
    /\ (forall i, In (Read i) (d_log s) ->
          In (Write i) (d_log s) /\ 0 <= i < len output)
    /\ log_ok (d_log s)
    /\ (forall t t' len dist,
          dec_reach (hdr_size input) (dec_init input output) t ->
          dec_body (hdr_size input) t = DNext t' ->
          match_token t = Some (len, dist) ->
          1 <= dist <= d_pos t /\ d_pos t + len <= hdr_size input).
Proof.
  intros Hcap.
  assert (Hmatch : forall t t' len dist,
            dec_body (hdr_size input) t = DNext t' ->
            match_token t = Some (len, dist) ->
            1 <= dist <= d_pos t /\ d_pos t + len <= hdr_size input).
  { intros t t' len0 dist Hb Ht.
    pose proof (dec_body_match _ _ _ _ _ Hb Ht). tauto. }
  destruct (decompress_run_spec input output out_size Hcap)
    as [[Hh Hrun]|(Hh & t & s & Hrun & Hreach & Hstop & Hinv & Ho & Hp & Hl
                   & Hlog & Hwr)].
  - exists 0, (dec_init input output). split; [done|].
    cbn [dec_init d_out d_log log_ok In]. do 4 (split; [done|]). eauto.
  - exists (verdict input t), s. split; [done|]. split; [congruence|].
    assert (Hsz : hdr_size input <= len output).
    { destruct Hinv as [_ Hc _ _]. unfold len in *. lia. }
    assert (Hw : forall i, In (Write i) (d_log s) ->
              0 <= i < hdr_size input /\ i < len output).
    { intros i Hi. apply Hwr in Hi. destruct Hinv as [Hpos _ _ _]. lia. }
    split; [done|]. split; [|split; [done|eauto]].
    intros i Hi. pose proof (log_ok_read _ _ Hlog Hi) as Hwi.
    split; [done|]. apply Hw in Hwi. lia.
Qed.

Lemma decompress_in_bounds_witness :
  exists r s,
    decompress_run stream_window1 (replicate 5 x00) 5 = Some (r, s)
    /\ length (d_out s) = 5%nat /\ log_ok (d_log s).
Proof.
  destruct (decompress_in_bounds stream_window1 (replicate 5 x00) 5)
    as (r & s & Hrun & Hlen & _ & _ & Hlog & _).
  - vm_compute. discriminate.
  - exists r, s. auto.
Defined.

(** C2, as the decoder does it. nanozip_decompress returns 0 when the input
    has fewer than 14 bytes, the magic differs, the window field is 0 (it
    cannot exceed 65535), the announced size exceeds the capacity, the token
    loop, before the announced size is produced, comes to an escape marker
    with no byte after it or to a match marker with fewer than 4 bytes left,
    or, after the loop, the number of produced bytes differs from the
    announced size or their CRC32 from the stored one; a non-zero result is
    the announced size. *)
Theorem decompress_rejects input output out_size :
  out_size <= len output ->
  exists r s,
    decompress_run input output out_size = Some (r, s)
    /\ (len input < 14 -> r = 0)
    /\ (hdr_magic input <> NZ_MAGIC -> r = 0)
    /\ (hdr_window input = 0 \/ hdr_window input > 65535 -> r = 0)
    /\ (hdr_size input > out_size -> r = 0)
    /\ (forall t, dec_reach (hdr_size input) (dec_init input output) t ->
          loop_cond (hdr_size input) t = true -> cut_token (d_in t) -> r = 0)
    /\ (d_pos s <> hdr_size input
        \/ nz_crc32 (take (Z.to_nat (hdr_size input)) (d_out s))
           <> hdr_crc input -> r = 0)
    /\ (r <> 0 -> r = hdr_size input).
Proof.
  intros Hcap.
  destruct (decompress_run_spec input output out_size Hcap)
    as [[Hh Hrun]|(Hh & t & s & Hrun & Hreach & Hstop & Hinv & Ho & Hp & _)].
  { exists 0, (dec_init input output). split; [done|]. by repeat split. }
  exists (verdict input t), s. split; [done|].
  unfold header_ok in Hh.
  apply andb_true_iff in Hh as [Hh Hw]. apply andb_true_iff in Hh as [Hl Hm].
  apply negb_true_iff in Hl, Hw. apply Z.ltb_ge in Hl. apply Z.eqb_eq in Hm.
  apply orb_false_iff in Hw as [Hw Hsz]. apply orb_false_iff in Hw as [Hw0 Hw1].
  apply Z.eqb_neq in Hw0.
  assert (hdr_window input <= 65535) as Hw1'
    by (change MAX_WINDOW with 65535 in Hw1;
        destruct (Z.gtb_spec (hdr_window input) 65535); [done|lia]).
  assert (hdr_size input <= out_size) as Hsz'
    by (destruct (Z.gtb_spec (hdr_size input) out_size); [done|lia]).
  split; [lia|]. split; [done|]. split; [lia|]. split; [lia|].
  split; [|split].
  - intros t0 Hreach0 Hc0 Hcut.
    pose proof (dec_body_cut (hdr_size input) t0 Hcut) as Hb.
    pose proof (dec_loop_reach _ _ _ Hreach0 (or_intror Hb) _ (le_n _)) as H1.
    pose proof (dec_loop_reach _ _ _ Hreach Hstop _ (le_n _)) as H2.
    assert (t0 = t) as -> by congruence.
    apply verdict_break. by apply loop_cond_pos.
  - rewrite Ho, Hp. unfold verdict. intros [Hne|Hne].
    + destruct (Z.eqb_spec (d_pos t) (hdr_size input)); [done|done].
    + destruct (Z.eqb_spec (nz_crc32 (take (Z.to_nat (hdr_size input)) (d_out t)))
                  (hdr_crc input)); [done|]. by rewrite andb_false_r.
  - unfold verdict. by destruct (_ && _).
Qed.

Lemma decompress_rejects_witness :
  exists r s,
    decompress_run stream_A_cut (replicate 1 x00) 1 = Some (r, s)
    /\ (r <> 0 -> r = hdr_size stream_A_cut).
Proof.
  destruct (decompress_rejects stream_A_cut (replicate 1 x00) 1)
    as (r & s & Hrun & _ & _ & _ & _ & _ & _ & Hr).
  - vm_compute. discriminate.
  - exists r, s. auto.
Defined.

(** C2, counterexample. The stream [A], escape marker, announced as one
    byte: it ends inside an escape token, and nanozip_decompress returns 1,
    because the loop stops once the announced byte is produced. *)
Lemma cut_stream_accepted :
  ends_inside_token (drop 14 stream_A_cut) = true
  /\ nanozip_decompress stream_A_cut (replicate 1 x00) 1 = Some (1, [x41])
  /\ ~ cut_stream_refused stream_A_cut (replicate 1 x00) 1.
Proof.
  split; [reflexivity|]. split; [vm_compute; reflexivity|].
  intros H. destruct (H eq_refl) as (buf & Hbuf).
  vm_compute in Hbuf. discriminate.
Qed.

(** C3, as the decoder does it. In a run of nanozip_decompress that returns
    non-zero, every match token the loop comes to has a length in [3, 258]
    and a distance in [1, out_pos] (at most 65535, the two bytes of the
    token); the window size of the header does not enter. A match token with
    distance 0, with a distance above out_pos, or whose copy would pass the
    announced size makes the function return 0. *)
Theorem decoded_match_bounds input output out_size :
  out_size <= len output ->
  exists r s,
    decompress_run input output out_size = Some (r, s)
    /\ (r <> 0 ->
        forall t len dist,
          dec_reach (hdr_size input) (dec_init input output) t ->
          loop_cond (hdr_size input) t = true ->
          match_token t = Some (len, dist) ->
          MIN_MATCH <= len <= MAX_MATCH
          /\ 1 <= dist <= Z.min (d_pos t) 65535
          /\ d_pos t + len <= hdr_size input)
    /\ (forall t len dist,
          dec_reach (hdr_size input) (dec_init input output) t ->
          loop_cond (hdr_size input) t = true ->
          match_token t = Some (len, dist) ->
          dist = 0 \/ dist > d_pos t \/ d_pos t + len > hdr_size input ->
          r = 0).
Proof.
  intros Hcap.
  destruct (decompress_run_spec input output out_size Hcap)
    as [[Hh Hrun]|(Hh & t & s & Hrun & Hreach & Hstop & Hinv & Ho & Hp & Hl
                   & _)].
  { exists 0, (dec_init input output). by repeat split. }
  exists (verdict input t), s. split; [done|].
  assert (Hstopped : forall t0,
            dec_reach (hdr_size input) (dec_init input output) t0 ->
            loop_cond (hdr_size input) t0 = true ->
            dec_body (hdr_size input) t0 = DBreak -> verdict input t = 0).
  { intros t0 Hreach0 Hc0 Hb.
    pose proof (dec_loop_reach _ _ _ Hreach0 (or_intror Hb) _ (le_n _)) as H1.
    pose proof (dec_loop_reach _ _ _ Hreach Hstop _ (le_n _)) as H2.
    assert (t0 = t) as -> by congruence.
    apply verdict_break. by apply loop_cond_pos. }
  split.
  - intros Hr t0 len0 dist Hreach0 Hc0 Ht.
    assert (dinv (hdr_size input) t0) as Hinv0.
    { apply (dec_reach_inv _ _ _ Hreach0). apply dec_init_inv.
      destruct Hinv as [Hpos Hc _ _]. unfold len in *. lia. }
    pose proof (dec_body_safe _ _ Hinv0 (loop_cond_pos _ _ Hc0)) as Hsafe.
    destruct (dec_body (hdr_size input) t0) as [t1| |] eqn:Hb; [| |done].
    + pose proof (dec_body_match _ _ _ _ _ Hb Ht). lia.
    + exfalso. apply Hr. by apply (Hstopped t0).
  - intros t0 len0 dist Hreach0 Hc0 Ht Hbad.
    apply (Hstopped t0); [done|done|].
    apply (dec_body_reject _ _ _ _ Ht). tauto.
Qed.

Lemma decoded_match_bounds_witness :
  exists r s,
    decompress_run stream_window1 (replicate 5 x00) 5 = Some (r, s)
    /\ (r <> 0 ->
        forall t len dist,
          dec_reach (hdr_size stream_window1)
            (dec_init stream_window1 (replicate 5 x00)) t ->
          loop_cond (hdr_size stream_window1) t = true ->
          match_token t = Some (len, dist) ->
          MIN_MATCH <= len <= MAX_MATCH
          /\ 1 <= dist <= Z.min (d_pos t) 65535
          /\ d_pos t + len <= hdr_size stream_window1).
Proof.
  destruct (decoded_match_bounds stream_window1 (replicate 5 x00) 5)
    as (r & s & Hrun & Hok & _).
  - vm_compute. discriminate.
  - exists r, s. auto.
Defined.

(** C3, counterexample. Under a header window of 1 the stream [a], [b],
    match(distance 2, length 3) is accepted and decodes to [ababa]: the
    distance 2 exceeds min(out_pos, window_size) = 1. *)
Lemma distance_beyond_window :
  nanozip_decompress stream_window1 (replicate 5 x00) 5
  = Some (5, [x61; x62; x61; x62; x61])
  /\ hdr_window stream_window1 = 1
  /\ ~ distance_within_window stream_window1 (replicate 5 x00) 5.
Proof.
  split; [vm_compute; reflexivity|]. split; [reflexivity|].
  intros H.
  destruct (decompress_run stream_window1 (replicate 5 x00) 5)
    as [[r s]|] eqn:Hrun; [|vm_compute in Hrun; discriminate].
  assert (r = 5) as -> by (vm_compute in Hrun; congruence).
  specialize (H 5 s Hrun ltac:(lia)).
  set (t := {| d_in := [xc0; x02; x00; x00]; d_pos := 2;
               d_out := [x61; x62; x00; x00; x00];
               d_log := [Write 1; Write 0] |}).
  specialize (H t 3 2).
  assert (1 <= 2 <= Z.min (d_pos t) (hdr_window stream_window1)) as Hbad.
  { apply H; [|reflexivity|reflexivity].
    eapply dec_reach_step; [reflexivity|reflexivity|vm_compute; reflexivity|].
    eapply dec_reach_step; [reflexivity|reflexivity|vm_compute; reflexivity|].
    apply dec_reach_refl. }
  vm_compute in Hbad. destruct Hbad as [_ Hbad]. by apply Hbad.
Qed.

(** ** Encoder: what a pass of the loop writes *)

Lemma wrap32_small z : 0 <= z < 2 ^ 32 -> wrap32 z = z.
Proof. intros H. unfold wrap32. by apply Z.mod_small. Qed.

Lemma to_ptrdiff_le z : to_ptrdiff z <= z.
Proof.
  unfold to_ptrdiff. change (2 ^ 64) with 18446744073709551616.
  destruct (z <? 2 ^ 63); lia.
Qed.

Lemma to_ptrdiff_small z : z < 2 ^ 63 -> to_ptrdiff z = z.
Proof. intros H. unfold to_ptrdiff. destruct (Z.ltb_spec z (2 ^ 63)); [done|lia]. Qed.

(** A pass that continues has written one token of the table, standing
    for the input at [pos]: a match when [find_match] returned a length of 3
    or more, a literal otherwise. *)
Lemma comp_body_emitted bk input out_size s s1 :
  len input < 2 ^ 64 -> cinv input s -> c_pos s < len input ->
  comp_body bk input out_size s = CNext s1 ->
  exists t,
    emitted input s s1 t /\ token_ok t /\ cinv input s1
    /\ window_size (c_st s1) = window_size (c_st s)
    /\ c_pos s < c_pos s1
    /\ len (c_out s1) <= out_size
    /\ (MIN_MATCH <= (find_match bk input (c_pos s) (len input) (c_st s)).1.1
        <-> exists dist mlen, t = TMatch dist mlen).
Proof.
  intros Hsz [Hpos Hwf Hout] Hlt. unfold comp_body.
  pose proof (to_ptrdiff_le out_size) as Hcast.
  pose proof (find_match_wf bk input (c_pos s) (len input) (c_st s) Hwf)
    as [Hwf' Hw'].
  pose proof (find_match_good bk input (c_pos s) (len input) (c_st s)) as Hgood.
  destruct (find_match bk input (c_pos s) (len input) (c_st s))
    as [[mlen cand] st'] eqn:Efm.
  cbn [fst snd] in *.
  specialize (Hgood mlen cand st' ltac:(lia) Hwf eq_refl).
  destruct (Z.geb_spec mlen MIN_MATCH) as [Hm|Hm].
  - specialize (Hgood Hm). destruct Hgood as [Hl He Hc Hd Hb].
    destruct Hwf as [_ _ Hwin _ _]. unfold MIN_MATCH, MAX_MATCH in Hl, Hm.
    change MAX_WINDOW with 65535 in *. change MIN_WINDOW with 1024 in *.
    rewrite wrap32_small by (change (2 ^ 32) with 4294967296; lia).
    destruct (Z.gtb_spec (len (c_out s)) (to_ptrdiff out_size - 4)) as [|Hroom]; [done|].
    intros Heq; inversion Heq; subst; clear Heq.
    exists (TMatch (c_pos s - cand) mlen).
    unfold emitted, token_ok. cbn [c_pos c_out c_st token_bytes].
    split; [split; [done|]|].
    { split; [done|].
      split; [split; [lia|apply Z.min_glb; lia]|].
      split; [done|]. split; [lia|].
      intros k Hk. rewrite Hb by done. f_equal. lia. }
    split; [change MAX_WINDOW with 65535; unfold MIN_MATCH, MAX_MATCH; lia|].
    split; [constructor; cbn [c_pos c_out c_st]; [lia|done|]|].
    { rewrite len_app. unfold len at 2. cbn. lia. }
    split; [done|]. split; [unfold MIN_MATCH in *; lia|].
    split; [rewrite len_app; unfold len at 2; cbn; lia|].
    split; [eauto|done].
  - unfold MIN_MATCH in Hm.
    assert (Hnot : ~ exists dist mlen0 : Z, TLit (getb input (c_pos s))
                       = TMatch dist mlen0) by (intros (? & ? & ?); done).
    assert (Hnot' : ~ exists dist mlen0 : Z, TEsc (getb input (c_pos s))
                       = TMatch dist mlen0) by (intros (? & ? & ?); done).
    pose proof (b2z_range (getb input (c_pos s))) as Hbr.
    destruct (Z.eqb_spec (b2z (getb input (c_pos s))) 191) as [Ebf|Ebf].
    { destruct (Z.geb_spec (len (c_out s)) (to_ptrdiff out_size - 2)) as [|Hroom]; [done|].
      intros Heq; inversion Heq; subst; clear Heq.
      exists (TEsc (getb input (c_pos s))).
      unfold emitted, token_ok. cbn [c_pos c_out c_st token_bytes].
      assert (getb input (c_pos s) = xbf) as Hx by (by apply b2z_inj).
      split; [split; [by rewrite Hx|auto]|]. split; [auto|].
      split; [constructor; cbn [c_pos c_out c_st]; [lia|done|]|].
      { rewrite len_app. unfold len at 2. cbn. lia. }
      split; [done|]. split; [lia|].
      split; [rewrite len_app; unfold len at 2; cbn; lia|].
      split; [unfold MIN_MATCH; lia|tauto]. }
    destruct (Z.geb_spec (b2z (getb input (c_pos s))) 192) as [Ec0|Ec0].
    { destruct (Z.geb_spec (len (c_out s)) (to_ptrdiff out_size - 2)) as [|Hroom]; [done|].
      intros Heq; inversion Heq; subst; clear Heq.
      exists (TEsc (getb input (c_pos s))).
      unfold emitted, token_ok. cbn [c_pos c_out c_st token_bytes].
      split; [split; [done|auto]|]. split; [auto|].
      split; [constructor; cbn [c_pos c_out c_st]; [lia|done|]|].
      { rewrite len_app. unfold len at 2. cbn. lia. }
      split; [done|]. split; [lia|].
      split; [rewrite len_app; unfold len at 2; cbn; lia|].
      split; [unfold MIN_MATCH; lia|tauto]. }
    destruct (Z.geb_spec (len (c_out s)) (to_ptrdiff out_size - 1)) as [|Hroom]; [done|].
    intros Heq; inversion Heq; subst; clear Heq.
    exists (TLit (getb input (c_pos s))).
    unfold emitted, token_ok. cbn [c_pos c_out c_st token_bytes].
    split; [split; [done|]|]. { split; [done|]. split; [lia|done]. }
    split; [lia|].
    split; [constructor; cbn [c_pos c_out c_st]; [lia|done|]|].
    { rewrite len_app. unfold len at 2. cbn. lia. }
    split; [done|]. split; [lia|].
    split; [rewrite len_app; unfold len at 2; cbn; lia|].
    split; [unfold MIN_MATCH; lia|tauto].
Qed.

(** ** Encoder: the header and the loop *)

Lemma header_length input st : length (header input st) = 14%nat.
Proof. reflexivity. Qed.

Lemma header_magic_bytes : le32 NZ_MAGIC = [x50; x5a; x4e; x5a].
Proof. reflexivity. Qed.

(** The fields the decoder reads from a stream that starts with the
    encoder's header. *)
Lemma header_fields input st rest :
  hdr_magic (header input st ++ rest) = NZ_MAGIC
  /\ hdr_size (header input st ++ rest) = wrap32 (len input)
  /\ hdr_crc (header input st ++ rest) = nz_crc32 input
  /\ hdr_window (header input st ++ rest) = window_size st mod 2 ^ 16
  /\ drop 14 (header input st ++ rest) = rest
  /\ len (header input st ++ rest) = 14 + len rest.
Proof.
  unfold hdr_magic, hdr_size, hdr_crc, hdr_window, header.
  assert (0 <= wrap32 (len input) < 2 ^ 32)
    by (apply Z.mod_pos_bound; lia).
  pose proof (nz_crc32_range input).
  assert (0 <= window_size st mod 2 ^ 16 < 2 ^ 16)
    by (apply Z.mod_pos_bound; lia).
  split; [|split; [|split; [|split; [|split]]]].
  - rewrite <- app_assoc. apply (rd32_le32 []). done.
  - rewrite <- !app_assoc.
    apply (rd32_le32 (le32 NZ_MAGIC)). done.
  - rewrite <- !app_assoc. rewrite (app_assoc (le32 NZ_MAGIC)).
    apply (rd32_le32 (le32 NZ_MAGIC ++ le32 (wrap32 (len input)))). done.
  - rewrite <- !app_assoc. rewrite (app_assoc (le32 NZ_MAGIC)).
    rewrite (app_assoc (le32 NZ_MAGIC ++ le32 (wrap32 (len input)))).
    apply (rd16_le16 ((le32 NZ_MAGIC ++ le32 (wrap32 (len input)))
                       ++ le32 (nz_crc32 input))). done.
  - reflexivity.
  - rewrite len_app. reflexivity.
Qed.

Lemma comp_init_inv input w : cinv input (comp_init input w).
Proof.
  constructor; cbn [comp_init c_pos c_out c_st].
  - pose proof (len_nonneg input). lia.
  - apply nz_init_wf.
  - unfold len. rewrite header_length. lia.
Qed.

Lemma tokens_bytes_cons t toks :
  tokens_bytes (t :: toks) = token_bytes t ++ tokens_bytes toks.
Proof. reflexivity. Qed.

(** From any state the loop passes through, the bytes written since are
    the bytes of a sequence of tokens of the table. *)
Lemma comp_reach_tokens bk input out_size s s2 :
  comp_reach bk input out_size s s2 ->
  len input < 2 ^ 64 -> cinv input s ->
  exists toks,
    c_out s2 = c_out s ++ tokens_bytes toks
    /\ Forall token_ok toks /\ cinv input s2
    /\ window_size (c_st s2) = window_size (c_st s)
    /\ c_pos s <= c_pos s2
    /\ (toks <> [] -> len (c_out s2) <= out_size).
Proof.
  intros Hreach Hsz.
  induction Hreach as [s|s s1 s2 Hlt Hb Hreach IH]; intros Hinv.
  - exists []. unfold tokens_bytes. cbn. rewrite app_nil_r.
    do 4 (split; [done|]). split; [lia|done].
  - destruct (comp_body_emitted _ _ _ _ _ Hsz Hinv Hlt Hb)
      as (t & [Hout _] & Htok & Hinv1 & Hw1 & Hp1 & Hcap1 & _).
    destruct (IH Hinv1) as (toks & Hout2 & Htoks & Hinv2 & Hw2 & Hp2 & Hcap2).
    exists (t :: toks). rewrite tokens_bytes_cons.
    split; [by rewrite Hout2, Hout, <- app_assoc|].
    split; [by constructor|]. split; [done|]. split; [congruence|].
    split; [lia|]. intros _. destruct toks as [|t' toks'].
    + unfold tokens_bytes in Hout2. cbn in Hout2. rewrite app_nil_r in Hout2.
      by rewrite Hout2.
    + by apply Hcap2.
Qed.



(** ** The decoder replays the encoder *)

(** One token: the decoder, at the output position the encoder was at and
    with the input reproduced so far, consumes exactly the token and has the
    input reproduced up to the encoder's next position. *)
Lemma dec_token D input s s1 t d rest :
  emitted input s s1 t -> token_ok t ->
  c_pos s < len input -> len input <= D ->
  dinv D d -> d_pos d = c_pos s -> d_in d = token_bytes t ++ rest ->
  prefix_agrees (d_out d) input (c_pos s) ->
  exists d1,
    dec_body D d = DNext d1
    /\ d_in d1 = rest /\ d_pos d1 = c_pos s1 /\ dinv D d1
    /\ prefix_agrees (d_out d1) input (c_pos s1)
    /\ length (d_out d1) = length (d_out d).
Proof.
  intros [_ Hem] Htok Hlt HD Hinv Hpos Hin Hpre.
  assert (Hcap : d_pos d < len (d_out d)) by (destruct Hinv; lia).
  assert (Hp0 : 0 <= d_pos d) by (destruct Hinv; lia).
  assert (Hlit : forall b rest0,
            b = getb input (c_pos s) -> c_pos s1 = c_pos s + 1 ->
            exists d1, dnext (emit (advance d rest0) b) = DNext d1
              /\ d_in d1 = rest0 /\ d_pos d1 = c_pos s1 /\ dinv D d1
              /\ prefix_agrees (d_out d1) input (c_pos s1)
              /\ length (d_out d1) = length (d_out d)).
  { intros b rest0 Hb Hnext.
    destruct (emit_ok D (advance d rest0) b (dinv_advance D d rest0 Hinv)
                ltac:(cbn [advance d_pos]; lia))
      as (d1 & -> & Hi1 & Hp1 & Ho1 & Hinv1).
    cbn [advance d_in d_pos d_out] in *.
    exists d1. split; [done|]. split; [done|]. split; [lia|]. split; [done|].
    split; [|by rewrite Ho1, length_insert].
    intros i Hi. rewrite Ho1.
    destruct (Z.eq_dec i (d_pos d)) as [->|Hne].
    - rewrite getb_insert_eq by lia. congruence.
    - rewrite getb_insert_ne by lia. apply Hpre. lia. }
  unfold dec_body. rewrite Hin.
  destruct t as [b|b|dist mlen]; cbn [token_bytes app token_ok] in *.
  - destruct Hem as (Hb & Hle & Hnext).
    destruct (Z.eqb_spec (b2z b) 191); [lia|].
    destruct (Z.eqb_spec (b2z b) 192); [lia|]. by apply Hlit.
  - destruct Hem as (Hb & _ & Hnext).
    change (b2z xbf =? 191) with true. cbn match. by apply Hlit.
  - destruct Hem as (Hl & Hd & Hnext & Hend & Hbytes).
    destruct Htok as [_ Hw]. change MAX_WINDOW with 65535 in Hw.
    unfold MIN_MATCH, MAX_MATCH in *.
    change (b2z xc0 =? 191) with false. change (b2z xc0 =? 192) with true.
    cbn match. rewrite dist_value, !b2z_z2b.
    rewrite Z.shiftr_div_pow2 by lia.
    rewrite le16_value by (change (2 ^ 16) with 65536; lia).
    rewrite (Z.mod_small (mlen - 3)) by lia.
    replace (mlen - 3 + 3) with mlen by lia.
    assert (dist <= c_pos s) by (pose proof (Z.le_min_l (c_pos s)
      (window_size (c_st s))); lia).
    destruct (Z.gtb_spec mlen 258); [lia|].
    destruct (Z.eqb_spec dist 0); [lia|].
    destruct (Z.gtb_spec dist (d_pos d)); [lia|].
    destruct (Z.gtb_spec (d_pos d + mlen) D); [lia|]. cbn [orb].
    destruct (copy_match_ok D dist (Z.to_nat mlen) d Hinv ltac:(lia) ltac:(lia))
      as (d' & -> & Hi' & Hp' & Hlen' & Hinv' & Hlow & Hnew).
    cbn [mbind option_bind dnext].
    exists (advance d' rest). split; [done|]. split; [done|].
    cbn [advance d_pos d_out]. split; [lia|].
    split; [by apply dinv_advance|]. split; [|done].
    (* the copied bytes, by induction on the offset *)
    assert (Hcopy : forall m : nat, forall k, 0 <= k < Z.of_nat m -> k < mlen ->
              getb (d_out d') (d_pos d + k) = getb input (d_pos d + k)).
    { intros m. induction m as [|m IHn]; intros k Hk Hkm; [lia|].
      rewrite Hnew by lia.
      destruct (Z.lt_ge_cases k dist).
      - rewrite Hlow by lia. rewrite Hpre by lia.
        rewrite Hpos, Hbytes by lia. f_equal. lia.
      - replace (d_pos d + k - dist) with (d_pos d + (k - dist)) by lia.
        rewrite IHn by lia. rewrite Hpos, (Hbytes k) by lia. f_equal. lia. }
    intros i Hi. destruct (Z.lt_ge_cases i (d_pos d)).
    + rewrite Hlow by lia. apply Hpre. lia.
    + replace i with (d_pos d + (i - d_pos d)) by lia.
      apply (Hcopy (Z.to_nat mlen)); lia.
Qed.

(** Any stretch of the encoder's run. *)
Lemma comp_reach_decodes bk input out_size D s s2 :
  comp_reach bk input out_size s s2 ->
  len input < 2 ^ 64 -> cinv input s -> len input <= D ->
  exists toks,
    c_out s2 = c_out s ++ tokens_bytes toks
    /\ forall d rest,
         dinv D d -> d_pos d = c_pos s ->
         d_in d = tokens_bytes toks ++ rest ->
         prefix_agrees (d_out d) input (c_pos s) ->
         exists d2,
           dec_reach D d d2
           /\ d_in d2 = rest /\ d_pos d2 = c_pos s2 /\ dinv D d2
           /\ prefix_agrees (d_out d2) input (c_pos s2)
           /\ length (d_out d2) = length (d_out d).
Proof.
  intros Hreach Hsz.
  induction Hreach as [s|s s1 s2 Hlt Hb Hreach IH]; intros Hinv HD.
  - exists []. unfold tokens_bytes. cbn. rewrite app_nil_r. split; [done|].
    intros d rest Hd Hp Hi Hpre. exists d. split; [constructor|]. done.
  - destruct (comp_body_emitted _ _ _ _ _ Hsz Hinv Hlt Hb)
      as (t & Hem & Htok & Hinv1 & _).
    destruct (IH Hinv1 HD) as (toks & Hout2 & Hdec).
    exists (t :: toks). rewrite tokens_bytes_cons.
    split; [destruct Hem as [Ho1 _]; by rewrite Hout2, Ho1, <- app_assoc|].
    intros d rest Hd Hp Hi Hpre. rewrite <- app_assoc in Hi.
    destruct (dec_token D input s s1 t d _ Hem Htok Hlt HD Hd Hp Hi Hpre)
      as (d1 & Hb1 & Hi1 & Hp1 & Hd1 & Hpre1 & Hl1).
    destruct (Hdec d1 rest Hd1 Hp1 Hi1 Hpre1)
      as (d2 & Hr2 & Hi2 & Hp2 & Hd2 & Hpre2 & Hl2).
    exists d2. split.
    + apply dec_reach_step with d1; [|lia|done|done].
      rewrite Hi. destruct t as [b0|b0|dist0 mlen0]; unfold len; cbn; lia.
    + do 4 (split; [done|]). congruence.
Qed.


(** ** The match finder's claims *)








(** What [find_match] leaves in the tables. *)
Lemma find_match_records bk data pos end_ st :
  wf_state st -> 0 <= pos -> pos + MIN_MATCH <= end_ ->
  let st' := (find_match bk data pos end_ st).2 in
  let h := hash3 data pos in
  let c := pos mod window_size st in
  tbl_get (head st') h = wrap32 pos
  /\ tbl_get (chain st') c = tbl_get (head st) h
  /\ (forall i, i <> Z.to_nat h -> head st' !! i = head st !! i)
  /\ (forall i, i <> Z.to_nat c -> chain st' !! i = chain st !! i)
  /\ length (head st') = length (head st)
  /\ length (chain st') = length (chain st)
  /\ window_size st' = window_size st.
Proof.
  intros [Hh Hc Hw _ _] Hpos Hend. cbn zeta. rewrite find_match_state by done.
  cbn [recorded head chain window_size].
  pose proof (hash3_range data pos) as Hr.
  change MIN_WINDOW with 1024 in Hw.
  pose proof (Z.mod_pos_bound pos (window_size st) ltac:(lia)) as Hm.
  split; [apply tbl_get_set_eq; lia|].
  split; [apply tbl_get_set_eq; lia|].
  unfold tbl_set.
  split; [intros i Hi; by apply list_lookup_insert_ne|].
  split; [intros i Hi; by apply list_lookup_insert_ne|].
  by rewrite !length_insert.
Qed.

(** C6, as the code does it. If pos + 3 > end, find_match returns length 0
    at once and leaves head and chain as they were. Otherwise, whether or
    not a match is found, head[hash of the 3 bytes at pos] becomes pos
    reduced to 32 bits (pos itself below 2^32), chain[pos mod window_size]
    becomes the value head[hash] had before the call, and no other entry of
    head or chain changes. *)
Theorem find_match_frame bk data pos end_ st :
  wf_state st -> 0 <= pos ->
  (pos + MIN_MATCH > end_ -> find_match bk data pos end_ st = (0, 0, st))
  /\ (pos + MIN_MATCH <= end_ ->
      let st' := (find_match bk data pos end_ st).2 in
      let h := hash3 data pos in
      let c := pos mod window_size st in
      tbl_get (head st') h = pos mod 2 ^ 32
      /\ (pos < 2 ^ 32 -> tbl_get (head st') h = pos)
      /\ tbl_get (chain st') c = tbl_get (head st) h
      /\ (forall i, i <> Z.to_nat h -> head st' !! i = head st !! i)
      /\ (forall i, i <> Z.to_nat c -> chain st' !! i = chain st !! i)
      /\ length (head st') = length (head st)
      /\ length (chain st') = length (chain st)
      /\ window_size st' = window_size st).
Proof.
  intros Hwf Hpos. split; [apply find_match_short|].
  intros Hend.
  destruct (find_match_records bk data pos end_ st Hwf Hpos Hend)
    as (H1 & H2 & H3 & H4 & H5 & H6 & H7).
  cbn zeta. split; [done|].
  split; [intros Hlt; rewrite H1; by apply wrap32_small|]. done.
Qed.

Lemma find_match_frame_witness :
  let bk := mkBackend Portable BuiltinCtz in
  let st := nz_init 0 in
  tbl_get (head (find_match bk ascii_ABCABCABC 4 12 st).2)
          (hash3 ascii_ABCABCABC 4) = 4.
Proof.
  intros bk st.
  destruct (find_match_frame bk ascii_ABCABCABC 4 12 st (nz_init_wf 0)
              ltac:(lia)) as [_ H].
  destruct (H ltac:(unfold MIN_MATCH; lia)) as (_ & H2 & _).
  apply H2. lia.
Defined.

(** C6, counterexample. At position 2^32 of a buffer of 2^32 + 3 zero
    bytes, head[hash] becomes 0, not pos. *)
Lemma head_entry_truncated :
  ~ head_holds_pos (mkBackend Portable BuiltinCtz) four_gib_zeros_3
      (2 ^ 32) (2 ^ 32 + 3) (nz_init 0).
Proof.
  intros H. unfold head_holds_pos in H.
  destruct (find_match_records (mkBackend Portable BuiltinCtz)
              four_gib_zeros_3 (2 ^ 32) (2 ^ 32 + 3) (nz_init 0)
              (nz_init_wf 0) ltac:(lia) ltac:(unfold MIN_MATCH; lia))
    as (H1 & _).
  rewrite H in H1 by (unfold MIN_MATCH; lia).
  unfold wrap32 in H1. rewrite Z.mod_same in H1 by lia. lia.
Qed.

(** ** The encoder's claims *)

Lemma comp_body_grows bk input out_size s s1 :
  comp_body bk input out_size s = CNext s1 ->
  exists tk, c_out s1 = c_out s ++ tk.
Proof.
  unfold comp_body.
  destruct (find_match _ _ _ _ _) as [[mlen cand] st'].
  repeat (match goal with |- context [if ?c then _ else _] => destruct c end);
    try done; intros Heq; inversion Heq; subst; cbn [c_out]; eauto.
Qed.

Lemma comp_reach_grows bk input out_size s s2 :
  comp_reach bk input out_size s s2 -> exists tk, c_out s2 = c_out s ++ tk.
Proof.
  induction 1 as [s|s s1 s2 _ Hb _ [tk2 IH]].
  - exists []. by rewrite app_nil_r.
  - destruct (comp_body_grows _ _ _ _ _ Hb) as [tk1 H1].
    exists (tk1 ++ tk2). by rewrite IH, H1, <- app_assoc.
Qed.

Lemma comp_loop_reach bk input out_size fuel : forall s,
  comp_reach bk input out_size s (comp_loop fuel bk input out_size s).
Proof.
  induction fuel as [|fuel IH]; intros s; cbn [comp_loop]; [constructor|].
  destruct (Z.ltb_spec (c_pos s) (len input)); [|constructor].
  destruct (comp_body bk input out_size s) as [s1|] eqn:Hb; [|constructor].
  by apply comp_reach_step with s1.
Qed.

(** The two ways [nanozip_compress] returns. *)
Lemma compress_run_cases bk input out_size w :
  (out_size < len input + 14 /\ compress_run bk input out_size w = None)
  \/ (len input + 14 <= out_size
      /\ exists s stream,
           compress_run bk input out_size w = Some s
           /\ comp_reach bk input out_size (comp_init input w) s
           /\ c_out s = header input (nz_init (wrap64 w)) ++ stream).
Proof.
  unfold compress_run.
  destruct (Z.ltb_spec out_size (len input + 14)); [by left|]. right.
  split; [done|].
  pose proof (comp_loop_reach bk input out_size (length input)
                (comp_init input w)) as Hreach.
  destruct (comp_reach_grows _ _ _ _ _ Hreach) as [stream Hs].
  eexists _, stream. split; [done|]. split; [done|]. done.
Qed.

(** C4, as the code does it. nanozip_compress returns 0 exactly when the
    capacity is below the input size plus the 14 bytes of the header; for
    every input and every larger capacity it returns the number of bytes
    written, at least 14 (the stream may be cut short when the capacity
    runs out). *)
Theorem compress_zero_iff bk input out_size w :
  ((nanozip_compress bk input out_size w).1 = 0
   <-> out_size < len input + 14)
  /\ (nanozip_compress bk input out_size w).1
     = len (nanozip_compress bk input out_size w).2
  /\ ((nanozip_compress bk input out_size w).1 <> 0 ->
      14 <= (nanozip_compress bk input out_size w).1).
Proof.
  unfold nanozip_compress.
  destruct (compress_run_cases bk input out_size w)
    as [[Hlt ->]|(Hge & s & stream & -> & _ & Hout)]; cbn [fst snd].
  - split; [tauto|]. split; [done|]. done.
  - assert (14 <= len (c_out s)).
    { rewrite Hout, len_app. unfold len at 1. rewrite header_length.
      pose proof (len_nonneg stream). lia. }
    split; [lia|]. split; [done|lia].
Qed.

(** C4, counterexample. With one input byte and a capacity of 14 the header
    would fit, and the function returns 0. *)
Lemma header_capacity_refused :
  ~ zero_iff_no_header_room (mkBackend Portable BuiltinCtz) [x41] 14 0.
Proof.
  unfold zero_iff_no_header_room. intros [H _].
  assert (14 < 14); [|lia]. apply H. reflexivity.
Qed.

(** C8, as the code does it. When nanozip_compress returns non-zero it has
    written a 14-byte little-endian header: the magic 0x5A4E5A50 at offset 0,
    the input size reduced to 32 bits at offset 4 (the size itself below
    2^32), the CRC32 of the whole input at offset 8, and at offset 12 the
    window size used: the requested one when it lies in [1024, 65535], and
    65535 otherwise; the bytes the loop writes begin at offset 14. *)
Theorem header_layout bk input out_size w :
  - 2 ^ 31 <= w < 2 ^ 31 -> len input + 14 <= out_size ->
  let n := (nanozip_compress bk input out_size w).1 in
  let out := (nanozip_compress bk input out_size w).2 in
  let used := if (1024 <=? w) && (w <=? 65535) then w else 65535 in
  n <> 0
  /\ (exists stream,
        out = le32 NZ_MAGIC ++ le32 (len input mod 2 ^ 32)
              ++ le32 (nz_crc32 input) ++ le16 used ++ stream
        /\ drop 14 out = stream /\ n = 14 + len stream)
  /\ le32 NZ_MAGIC = [x50; x5a; x4e; x5a]
  /\ rd32 out 0 = NZ_MAGIC
  /\ rd32 out 4 = len input mod 2 ^ 32
  /\ (len input < 2 ^ 32 -> rd32 out 4 = len input)
  /\ rd32 out 8 = nz_crc32 input
  /\ rd16 out 12 = used.
Proof.
  intros Hw Hcap. cbn zeta. unfold nanozip_compress.
  destruct (compress_run_cases bk input out_size w)
    as [[Hlt _]|(_ & s & stream & -> & _ & Hout)]; [lia|]. cbn [fst snd].
  destruct (header_fields input (nz_init (wrap64 w)) stream)
    as (Hmagic & Hsize & Hcrc & Hwin & Hdrop & Hlen).
  rewrite <- Hout in *.
  unfold hdr_magic, hdr_size, hdr_crc, hdr_window in *.
  assert (Hused : window_size (nz_init (wrap64 w))
                  = if (1024 <=? w) && (w <=? 65535) then w else 65535).
  { rewrite nz_init_window. change MIN_WINDOW with 1024.
    change MAX_WINDOW with 65535. change DEFAULT_WINDOW with 65535.
    unfold wrap64. change (2 ^ 64) with 18446744073709551616.
    change (2 ^ 31) with 2147483648 in Hw.
    destruct (Z.lt_ge_cases w 0).
    - assert (w mod 18446744073709551616 = w + 18446744073709551616) as ->.
      { replace w with (w + 18446744073709551616
                        + (-1) * 18446744073709551616) at 1 by lia.
        rewrite Z.mod_add by lia. by rewrite Z.mod_small by lia. }
      destruct (Z.leb_spec (w + 18446744073709551616) 65535); [lia|].
      destruct (Z.leb_spec 1024 w); [lia|]. by rewrite andb_false_r.
    - by rewrite Z.mod_small by lia. }
  assert (Hrange : 0 <= window_size (nz_init (wrap64 w)) < 2 ^ 16).
  { pose proof (nz_init_wf (wrap64 w)) as [_ _ Hr _ _].
    change MIN_WINDOW with 1024 in Hr. change MAX_WINDOW with 65535 in Hr.
    change (2 ^ 16) with 65536. lia. }
  rewrite Z.mod_small in Hwin by done. rewrite Hused in Hwin.
  pose proof (len_nonneg stream). pose proof (len_nonneg input).
  split; [lia|]. split.
  { exists stream. split; [|split; [done|done]].
    rewrite Hout. unfold header. rewrite Z.mod_small by done.
    rewrite Hused. by rewrite <- !app_assoc. }
  split; [reflexivity|]. split; [done|]. split; [done|].
  split; [|done]. intros Hlt. rewrite Hsize. apply wrap32_small. lia.
Qed.

Lemma header_layout_witness :
  rd16 (nanozip_compress (mkBackend Portable BuiltinCtz)
          ascii_ABCABCABC 100 100).2 12 = 65535.
Proof.
  pose proof (header_layout (mkBackend Portable BuiltinCtz)
                ascii_ABCABCABC 100 100 ltac:(lia)
                ltac:(vm_compute; discriminate)) as H.
  cbn zeta in H. destruct H as (_ & _ & _ & _ & _ & _ & _ & H). exact H.
Defined.

(** C9, the defect. With one byte of capacity left, a direct literal (one
    byte) is not written; with two bytes left, an escaped literal (two
    bytes) is not written: the loop stops and the function returns 14. One
    byte more of capacity and the token is written. *)
Theorem literal_capacity_off_by_one bk :
  nanozip_compress bk [x41] 15 0
  = (14, [x50; x5a; x4e; x5a; x01; x00; x00; x00; x8b; x9e; xd9; xd3;
          xff; xff])
  /\ nanozip_compress bk [x41] 16 0
     = (15, [x50; x5a; x4e; x5a; x01; x00; x00; x00; x8b; x9e; xd9; xd3;
             xff; xff; x41])
  /\ nanozip_compress bk [xbf] 16 0
     = (14, [x50; x5a; x4e; x5a; x01; x00; x00; x00; x90; x41; xdc; x89;
             xff; xff])
  /\ nanozip_compress bk [xbf] 17 0
     = (16, [x50; x5a; x4e; x5a; x01; x00; x00; x00; x90; x41; xdc; x89;
             xff; xff; xbf; xbf]).
Proof. destruct bk as [[] []]; vm_compute; done. Qed.

(** ** Round trip *)




Lemma comp_reach_size bk input out_size s s2 :
  comp_reach bk input out_size s s2 ->
  len input < 2 ^ 64 -> cinv input s ->
  len (c_out s) <= 14 + 2 * c_pos s ->
  len (c_out s2) <= 14 + 2 * c_pos s2.
Proof.
  intros Hreach Hsz.
  induction Hreach as [s|s s1 s2 Hlt Hb Hreach IH]; intros Hinv Hlen; [done|].
  destruct (comp_body_emitted _ _ _ _ _ Hsz Hinv Hlt Hb)
    as (t & [Hout Hem] & _ & Hinv1 & _).
  apply IH; [done|]. rewrite Hout, len_app.
  destruct t as [b|b|dist mlen]; unfold len at 2; cbn [token_bytes length].
  - destruct Hem as (_ & _ & ->). lia.
  - destruct Hem as (_ & _ & ->). lia.
  - destruct Hem as (Hl & _ & -> & _). unfold MIN_MATCH in Hl. lia.
Qed.




Lemma len_replicate n b : 0 <= n -> len (replicate (Z.to_nat n) b) = n.
Proof. intros Hn. unfold len. rewrite length_replicate. lia. Qed.





(** The size field of what [nanozip_compress] writes. *)
Lemma compressed_size_field bk input out_size w :
  len input + 14 <= out_size ->
  hdr_size (nanozip_compress bk input out_size w).2 = wrap32 (len input).
Proof.
  intros Hcap. unfold nanozip_compress.
  destruct (compress_run_cases bk input out_size w)
    as [[Hlt _]|(_ & s & stream & Hrun & _ & Hout)]; [lia|].
  rewrite Hrun. cbn [snd].
  destruct (header_fields input (nz_init (wrap64 w)) stream)
    as (_ & Hsize & _). by rewrite Hout.
Qed.

(** C8, counterexample. For 2^32 zero bytes the field at offset 4 holds 0. *)
Lemma size_field_wraps :
  ~ size_field_is_size (mkBackend Portable BuiltinCtz) four_gib_zeros
      (2 ^ 32 + 14) 0.
Proof.
  assert (Hlen : len four_gib_zeros = 2 ^ 32) by (apply len_replicate; lia).
  unfold size_field_is_size. intros H.
  rewrite compressed_size_field in H by (rewrite Hlen; lia).
  rewrite Hlen in H. unfold wrap32 in H. rewrite Z.mod_same in H by lia.
  lia.
Qed.

(** * Further properties of the code *)

(** ** The match finder and the encoder *)




(** X2. When the bucket of the three bytes at pos holds 0 (nothing
    recorded yet, or only the position 0), find_match returns length 0 and
    position 0 whatever the input holds, and still records pos. *)
Theorem find_match_empty_bucket bk data pos end_ st :
  pos + MIN_MATCH <= end_ ->
  tbl_get (head st) (hash3 data pos) = 0 ->
  find_match bk data pos end_ st = (0, 0, recorded data pos st).
Proof.
  intros Hend H0. unfold find_match.
  destruct (Z.gtb_spec (pos + MIN_MATCH) end_); [lia|].
  set (st1 := {| head := _; chain := chain st; window_size := _ |}).
  assert (search MATCH_SEARCH_LIMIT bk data pos end_ st1
            (tbl_get (head st) (hash3 data pos)) 0 0 = (0, 0)) as ->
    by (rewrite H0; reflexivity).
  reflexivity.
Qed.

Lemma find_match_empty_bucket_witness :
  (find_match (mkBackend NEON BuiltinCtz) ascii_ABCABCABC 3 12
     (recorded ascii_ABCABCABC 0 (nz_init 0))).1 = (0, 0).
Proof.
  rewrite (find_match_empty_bucket (mkBackend NEON BuiltinCtz)
             ascii_ABCABCABC 3 12 (recorded ascii_ABCABCABC 0 (nz_init 0))).
  - reflexivity.
  - vm_compute. discriminate.
  - vm_compute. reflexivity.
Defined.

Lemma search_backend bk bk' data pos end_ st fuel :
  forall cand best_len best_cand,
  search fuel bk data pos end_ st cand best_len best_cand
  = search fuel bk' data pos end_ st cand best_len best_cand.
Proof.
  induction fuel as [|fuel IH]; intros cand bl bc; cbn [search]; [done|].
  rewrite !match_length_scalar. rewrite !IH. done.
Qed.

Lemma find_match_backend bk bk' data pos end_ st :
  find_match bk data pos end_ st = find_match bk' data pos end_ st.
Proof. unfold find_match. by rewrite (search_backend bk bk'). Qed.

Lemma comp_body_backend bk bk' input out_size s :
  comp_body bk input out_size s = comp_body bk' input out_size s.
Proof. unfold comp_body. by rewrite (find_match_backend bk bk'). Qed.

Lemma comp_loop_backend bk bk' input out_size fuel : forall s,
  comp_loop fuel bk input out_size s = comp_loop fuel bk' input out_size s.
Proof.
  induction fuel as [|fuel IH]; intros s; cbn [comp_loop]; [done|].
  rewrite (comp_body_backend bk bk').
  destruct (_ <? _); [|done]. destruct (comp_body _ _ _ _); [apply IH|done].
Qed.

(** X3. Among the builds whose mask constant C defines, the 16 lanes of
    NEON and the 8 lanes of the portable fallback, the bytes
    nanozip_compress writes and the value it returns do not depend on the
    lane width, nor on how the first differing lane is located. *)
Theorem compress_backend_independent bk bk' input out_size w :
  bk_lanes bk <> AVX2 -> bk_lanes bk' <> AVX2 ->
  nanozip_compress bk input out_size w = nanozip_compress bk' input out_size w.
Proof.
  intros _ _. unfold nanozip_compress, compress_run.
  by rewrite (comp_loop_backend bk bk').
Qed.

Lemma compress_backend_independent_witness :
  nanozip_compress (mkBackend NEON BuiltinCtz) mixed_input 200 0
  = nanozip_compress (mkBackend Portable ShiftLoop) mixed_input 200 0.
Proof.
  apply (compress_backend_independent (mkBackend NEON BuiltinCtz)
           (mkBackend Portable ShiftLoop) mixed_input 200 0);
    cbn [bk_lanes]; discriminate.
Defined.

Lemma comp_body_fits bk input out_size s s1 :
  comp_body bk input out_size s = CNext s1 -> len (c_out s1) <= out_size.
Proof.
  unfold comp_body. pose proof (to_ptrdiff_le out_size) as Hc.
  destruct (find_match _ _ _ _ _) as [[mlen cand] st'].
  destruct (_ >=? MIN_MATCH).
  { destruct (Z.gtb_spec (len (c_out s)) (to_ptrdiff out_size - 4)); [done|].
    intros Heq; inversion Heq; subst. cbn [c_out]. rewrite len_app.
    unfold len at 2. cbn. lia. }
  destruct (_ =? 191).
  { destruct (Z.geb_spec (len (c_out s)) (to_ptrdiff out_size - 2)); [done|].
    intros Heq; inversion Heq; subst. cbn [c_out]. rewrite len_app.
    unfold len at 2. cbn. lia. }
  destruct (_ >=? 192).
  { destruct (Z.geb_spec (len (c_out s)) (to_ptrdiff out_size - 2)); [done|].
    intros Heq; inversion Heq; subst. cbn [c_out]. rewrite len_app.
    unfold len at 2. cbn. lia. }
  destruct (Z.geb_spec (len (c_out s)) (to_ptrdiff out_size - 1)); [done|].
  intros Heq; inversion Heq; subst. cbn [c_out]. rewrite len_app.
  unfold len at 2. cbn. lia.
Qed.

Lemma comp_reach_fits bk input out_size s s2 :
  comp_reach bk input out_size s s2 ->
  len (c_out s) <= out_size -> len (c_out s2) <= out_size.
Proof.
  induction 1 as [s|s s1 s2 _ Hb _ IH]; [done|]. intros _.
  apply IH. by apply comp_body_fits in Hb.
Qed.

(** X4. nanozip_compress never writes past the capacity it is given: the
    bytes written are as many as the value returned, and that value is 0 or
    at most out_size. *)
Theorem compress_within_capacity bk input out_size w :
  (nanozip_compress bk input out_size w).1
  = len (nanozip_compress bk input out_size w).2
  /\ ((nanozip_compress bk input out_size w).1 = 0
      \/ (nanozip_compress bk input out_size w).1 <= out_size).
Proof.
  unfold nanozip_compress.
  destruct (compress_run_cases bk input out_size w)
    as [[Hlt ->]|(Hge & s & stream & -> & Hreach & Hout)]; cbn [fst snd].
  - split; [done|]. by left.
  - split; [done|]. right. apply (comp_reach_fits _ _ _ _ _ Hreach).
    cbn [comp_init c_out]. unfold len at 1. rewrite header_length.
    pose proof (len_nonneg input). lia.
Qed.

(** X5. The compressed stream is at most the 14 bytes of the header and two
    bytes for each input byte. *)
Theorem compress_size_bound bk input out_size w :
  len input < 2 ^ 64 ->
  (nanozip_compress bk input out_size w).1 <= 14 + 2 * len input.
Proof.
  intros Hsz. unfold nanozip_compress.
  pose proof (len_nonneg input) as Hnn.
  destruct (compress_run_cases bk input out_size w)
    as [[Hlt ->]|(Hge & s & stream & -> & Hreach & Hout)]; cbn [fst snd];
    [lia|].
  pose proof (comp_init_inv input w) as Hinv0.
  pose proof (comp_reach_size _ _ _ _ _ Hreach Hsz Hinv0
                ltac:(cbn [comp_init c_pos c_out]; unfold len;
                      rewrite header_length; lia)) as Hlen.
  destruct (comp_reach_tokens _ _ _ _ _ Hreach Hsz Hinv0)
    as (_ & _ & _ & [Hp _ _] & _). lia.
Qed.

Lemma compress_size_bound_witness :
  (nanozip_compress (mkBackend Portable BuiltinCtz) [xff; xfe; xfd] 100 0).1
  <= 14 + 2 * len [xff; xfe; xfd].
Proof.
  apply compress_size_bound. vm_compute. reflexivity.
Defined.



(** The decoder on the bytes of a run of the encoder that stopped early. *)
Lemma truncated_stream_core bk input out_size w s output cap :
  len input < 2 ^ 32 ->
  compress_run bk input out_size w = Some s -> c_pos s < len input ->
  cap <= len output ->
  exists buf, nanozip_decompress (c_out s) output cap = Some (0, buf).
Proof.
  intros Hsz Hrun Hcut Hcap.
  assert (Hsz64 : len input < 2 ^ 64)
    by (change (2 ^ 32) with 4294967296 in Hsz;
        change (2 ^ 64) with 18446744073709551616; lia).
  pose proof (len_nonneg input) as Hnn.
  unfold nanozip_decompress.
  destruct (decompress_run_spec (c_out s) output cap Hcap)
    as [[_ Hd]|(Hok & t & s' & Hd & Hreach' & Hstop' & Hinv' & Ho & Hp
               & Hl & _)].
  { rewrite Hd. cbn. eauto. }
  rewrite Hd. cbn [mbind option_bind]. exists (d_out s'). do 2 f_equal.
  unfold compress_run in Hrun.
  destruct (out_size <? len input + 14); [done|]. inversion Hrun as [Hs].
  rewrite Hs. clear Hrun.
  pose proof (comp_init_inv input w) as Hinv0.
  pose proof (comp_loop_reach bk input out_size (length input)
                (comp_init input w)) as Hreach.
  rewrite Hs in Hreach.
  destruct (comp_reach_decodes _ _ _ (len input) _ _ Hreach Hsz64 Hinv0
              ltac:(lia)) as (toks & Hout & Hdec).
  cbn [comp_init c_out c_pos] in Hout, Hdec.
  destruct (header_fields input (nz_init (wrap64 w)) (tokens_bytes toks))
    as (_ & Hsize & _ & _ & Hdrop & _).
  rewrite <- Hout in *. rewrite wrap32_small in Hsize by lia.
  rewrite Hsize in *.
  assert (len input <= len output).
  { destruct Hinv' as [_ Hc _ _]. unfold len in *. lia. }
  destruct (Hdec (dec_init (c_out s) output) []
              (dec_init_inv (c_out s) output (len input) ltac:(lia)) eq_refl
              ltac:(cbn [dec_init d_in]; by rewrite Hdrop, app_nil_r)
              ltac:(intros i Hi; lia))
    as (d2 & Hr2 & Hi2 & Hp2 & _).
  assert (Hstop2 : loop_cond (len input) d2 = false \/
                   dec_body (len input) d2 = DBreak).
  { left. unfold loop_cond. by rewrite Hi2. }
  pose proof (dec_loop_reach _ _ _ Hreach' Hstop' _ (le_n _)) as H1.
  pose proof (dec_loop_reach _ _ _ Hr2 Hstop2 _ (le_n _)) as H2.
  assert (t = d2) as -> by congruence.
  apply verdict_break. rewrite Hsize. lia.
Qed.

(** X7. A compression cut short is refused: when nanozip_compress, on an
    input shorter than 2^32 bytes, stops before the end of the input for
    lack of capacity, nanozip_decompress returns 0 on the bytes written. *)
Theorem truncated_stream_rejected bk input out_size w s output cap :
  len input < 2 ^ 32 ->
  compress_run bk input out_size w = Some s -> c_pos s < len input ->
  cap <= len output ->
  exists buf, nanozip_decompress (c_out s) output cap = Some (0, buf).
Proof. apply truncated_stream_core. Qed.

Lemma truncated_stream_rejected_witness :
  exists buf,
    nanozip_decompress
      (nanozip_compress (mkBackend Portable BuiltinCtz) [x41; x42] 16 0).2
      (replicate 2 x00) 2
    = Some (0, buf).
Proof.
  assert (Hpos : c_pos <$> compress_run (mkBackend Portable BuiltinCtz)
                   [x41; x42] 16 0 = Some 1)
    by (vm_compute; reflexivity).
  unfold nanozip_compress.
  destruct (compress_run (mkBackend Portable BuiltinCtz) [x41; x42] 16 0)
    as [s|] eqn:Hrun; [|discriminate].
  assert (Hp : c_pos s = 1) by (cbn in Hpos; congruence). clear Hpos.
  cbn [snd].
  apply (truncated_stream_rejected (mkBackend Portable BuiltinCtz)
           [x41; x42] 16 0 s (replicate 2 x00) 2).
  - vm_compute. reflexivity.
  - exact Hrun.
  - rewrite Hp. vm_compute. reflexivity.
  - vm_compute. discriminate.
Defined.

Lemma comp_body_more_room bk input c1 c2 s s1 :
  c1 <= c2 < 2 ^ 63 ->
  comp_body bk input c1 s = CNext s1 -> comp_body bk input c2 s = CNext s1.
Proof.
  intros Hc. unfold comp_body.
  rewrite (to_ptrdiff_small c1), (to_ptrdiff_small c2) by lia.
  destruct (find_match _ _ _ _ _) as [[mlen cand] st'].
  destruct (_ >=? MIN_MATCH).
  { destruct (Z.gtb_spec (len (c_out s)) (c1 - 4)); [done|].
    destruct (Z.gtb_spec (len (c_out s)) (c2 - 4)); [lia|done]. }
  destruct (_ =? 191).
  { destruct (Z.geb_spec (len (c_out s)) (c1 - 2)); [done|].
    destruct (Z.geb_spec (len (c_out s)) (c2 - 2)); [lia|done]. }
  destruct (_ >=? 192).
  { destruct (Z.geb_spec (len (c_out s)) (c1 - 2)); [done|].
    destruct (Z.geb_spec (len (c_out s)) (c2 - 2)); [lia|done]. }
  destruct (Z.geb_spec (len (c_out s)) (c1 - 1)); [done|].
  destruct (Z.geb_spec (len (c_out s)) (c2 - 1)); [lia|done].
Qed.

Lemma comp_loop_more_room bk input c1 c2 fuel : forall s,
  c1 <= c2 < 2 ^ 63 ->
  exists tail,
    c_out (comp_loop fuel bk input c2 s)
    = c_out (comp_loop fuel bk input c1 s) ++ tail.
Proof.
  induction fuel as [|fuel IH]; intros s Hc; cbn [comp_loop].
  { exists []. by rewrite app_nil_r. }
  destruct (c_pos s <? len input); [|exists []; by rewrite app_nil_r].
  destruct (comp_body bk input c1 s) as [s1|] eqn:Hb1.
  - rewrite (comp_body_more_room _ _ _ _ _ _ Hc Hb1). by apply IH.
  - destruct (comp_body bk input c2 s) as [s2|] eqn:Hb2;
      [|exists []; by rewrite app_nil_r].
    pose proof (comp_loop_reach bk input c2 fuel s2) as Hreach.
    destruct (comp_reach_grows _ _ _ _ _ Hreach) as [tk2 H2].
    destruct (comp_body_grows _ _ _ _ _ Hb2) as [tk1 H1].
    exists (tk1 ++ tk2). by rewrite H2, H1, <- app_assoc.
Qed.

(** X8. A stream cut short by the capacity is a prefix of the stream a
    larger capacity gives: what nanozip_compress writes under capacity c1 is
    the beginning of what it writes under any capacity c2 >= c1. *)
Theorem compress_prefix_of_larger bk input c1 c2 w :
  c1 <= c2 < 2 ^ 63 ->
  exists tail,
    (nanozip_compress bk input c2 w).2
    = (nanozip_compress bk input c1 w).2 ++ tail.
Proof.
  intros Hc. unfold nanozip_compress, compress_run.
  destruct (Z.ltb_spec c1 (len input + 14)); cbn [snd].
  { eexists. reflexivity. }
  destruct (Z.ltb_spec c2 (len input + 14)); [lia|]. cbn [snd].
  by apply comp_loop_more_room.
Qed.

Lemma compress_prefix_of_larger_witness :
  exists tail,
    (nanozip_compress (mkBackend Portable BuiltinCtz) [x41; x42] 100 0).2
    = (nanozip_compress (mkBackend Portable BuiltinCtz) [x41; x42] 16 0).2
      ++ tail.
Proof.
  apply compress_prefix_of_larger. vm_compute. split; [discriminate|reflexivity].
Defined.

(** * Further properties of the decoder *)

Lemma emit_frame s v s' :
  emit s v = Some s' ->
  d_pos s' = d_pos s + 1
  /\ forall i, d_pos s' <= i -> getb (d_out s') i = getb (d_out s) i.
Proof.
  unfold emit. destruct (Z.leb_spec 0 (d_pos s)); [|done].
  destruct (_ <? _); [|done]. cbn [andb]. inversion 1; subst.
  cbn [d_pos d_out]. split; [done|]. intros i Hi.
  apply getb_insert_ne; lia.
Qed.

Lemma copy_match_frame dist n : forall s s',
  copy_match n dist s = Some s' ->
  d_pos s' = d_pos s + Z.of_nat n
  /\ forall i, d_pos s' <= i -> getb (d_out s') i = getb (d_out s) i.
Proof.
  induction n as [|n IH]; intros s s' H; cbn [copy_match] in H.
  { inversion H; subst. split; [lia|done]. }
  unfold load in H. destruct (_ && _); [|done]. cbn [mbind option_bind] in H.
  destruct (emit _ _) as [s2|] eqn:He; [|done]. cbn [mbind option_bind] in H.
  apply emit_frame in He as [Hp2 Hf2]. cbn [d_pos d_out] in Hp2, Hf2.
  apply IH in H as [Hp' Hf']. split; [lia|].
  intros i Hi. rewrite Hf' by lia. apply Hf2. lia.
Qed.

(** A pass only moves [out_pos] forward and leaves the buffer from the new
    [out_pos] on as it was. *)
Lemma dec_body_frame D s s1 :
  dec_body D s = DNext s1 ->
  d_pos s <= d_pos s1
  /\ forall i, d_pos s1 <= i -> getb (d_out s1) i = getb (d_out s) i.
Proof.
  unfold dec_body. destruct (d_in s) as [|b rest]; [done|].
  destruct (b2z b =? 191).
  { destruct rest as [|v rest']; [done|].
    destruct (emit _ _) as [s2|] eqn:He; [|done]. cbn [dnext].
    inversion 1; subst. apply emit_frame in He as [Hp Hf].
    cbn [advance d_pos d_out] in *. split; [lia|done]. }
  destruct (b2z b =? 192).
  { destruct rest as [|b1 [|b2 [|b3 rest']]]; try done.
    destruct (_ >? MAX_MATCH); [done|]. destruct (_ || _); [done|].
    destruct (copy_match _ _ _) as [s2|] eqn:Hc; [|done]. cbn.
    inversion 1; subst. apply copy_match_frame in Hc as [Hp Hf].
    cbn [advance d_pos d_out]. split; [lia|done]. }
  destruct (emit _ _) as [s2|] eqn:He; [|done]. cbn [dnext].
  inversion 1; subst. apply emit_frame in He as [Hp Hf].
  cbn [advance d_pos d_out] in *. split; [lia|done].
Qed.

Lemma dec_reach_frame D s t :
  dec_reach D s t ->
  d_pos s <= d_pos t
  /\ forall i, d_pos t <= i -> getb (d_out t) i = getb (d_out s) i.
Proof.
  induction 1 as [s|s s1 s2 _ _ Hb _ [IHp IHf]]; [split; [lia|done]|].
  apply dec_body_frame in Hb as [Hp Hf]. split; [lia|].
  intros i Hi. rewrite IHf by done. apply Hf. lia.
Qed.

(** The buffer after a run, against the buffer before. *)
Lemma decompress_frame_core input output out_size :
  out_size <= len output ->
  exists r buf,
    nanozip_decompress input output out_size = Some (r, buf)
    /\ length buf = length output
    /\ (header_ok input out_size = false -> buf = output)
    /\ (forall i, hdr_size input <= i -> getb buf i = getb output i).
Proof.
  intros Hcap. unfold nanozip_decompress.
  destruct (decompress_run_spec input output out_size Hcap)
    as [[Hh Hrun]|(Hh & t & s & Hrun & Hreach & _ & Hinv & Ho & _ & Hl & _)];
    rewrite Hrun; cbn [mbind option_bind].
  - exists 0, output. cbn [dec_init d_out]. done.
  - exists (verdict input t), (d_out s). split; [done|].
    split; [congruence|]. split; [congruence|].
    intros i Hi. rewrite Ho.
    destruct (dec_reach_frame _ _ _ Hreach) as [_ Hf].
    rewrite Hf; [done|]. destruct Hinv as [Hp _ _ _]. lia.
Qed.

(** X9. What nanozip_decompress leaves of the caller's buffer: it always
    returns, the buffer keeps its length, a refused header leaves it
    untouched, and in every case the bytes from the announced size on are
    as they were, whether the stream is accepted or not. *)
Theorem decompress_frame input output out_size :
  out_size <= len output ->
  exists r buf,
    nanozip_decompress input output out_size = Some (r, buf)
    /\ length buf = length output
    /\ (header_ok input out_size = false -> buf = output)
    /\ (forall i, hdr_size input <= i -> getb buf i = getb output i).
Proof. apply decompress_frame_core. Qed.

Lemma decompress_frame_witness :
  exists r buf,
    nanozip_decompress stream_A_cut [x11; x22; x33] 3 = Some (r, buf)
    /\ getb buf 1 = x22 /\ getb buf 2 = x33.
Proof.
  destruct (decompress_frame stream_A_cut [x11; x22; x33] 3)
    as (r & buf & Hd & _ & _ & Hf).
  - vm_compute. discriminate.
  - exists r, buf. split; [exact Hd|].
    split; apply Hf; vm_compute; discriminate.
Defined.

Lemma advance_advance s l1 l2 : advance (advance s l1) l2 = advance s l2.
Proof. reflexivity. Qed.

Lemma emit_advance s rest v s1 extra :
  emit (advance s rest) v = Some s1 ->
  emit (advance s (rest ++ extra)) v = Some (advance s1 (rest ++ extra)).
Proof.
  unfold emit. cbn [advance d_in d_pos d_out d_log].
  destruct (_ && _); [|done]. inversion 1; subst. reflexivity.
Qed.

Lemma copy_match_advance dist n : forall s s1 l,
  copy_match n dist s = Some s1 ->
  copy_match n dist (advance s l) = Some (advance s1 l).
Proof.
  induction n as [|n IH]; intros s s1 l H; cbn [copy_match] in *.
  { by inversion H. }
  unfold load in *. cbn [advance d_in d_pos d_out d_log] in *.
  destruct (_ && _); [|done]. cbn [mbind option_bind] in *.
  unfold emit in *. cbn [d_in d_pos d_out d_log] in *.
  destruct (_ && _); [|done]. cbn [mbind option_bind] in *.
  apply (IH _ _ l) in H. exact H.
Qed.

(** A pass that continues does the same with more input behind. *)
Lemma dec_body_more_input D s s1 extra :
  dec_body D s = DNext s1 ->
  dec_body D (advance s (d_in s ++ extra))
  = DNext (advance s1 (d_in s1 ++ extra)).
Proof.
  unfold dec_body. cbn [advance d_in d_pos].
  destruct (d_in s) as [|b rest] eqn:Ein; [done|]. cbn [app].
  destruct (b2z b =? 191).
  { destruct rest as [|v rest']; [done|]. cbn [app].
    destruct (emit (advance s rest') v) as [s2|] eqn:He; [|done].
    cbn [dnext]. inversion 1; subst. rewrite advance_advance.
    rewrite (emit_advance _ _ _ _ extra He). cbn [dnext].
    by rewrite (emit_in _ _ _ He). }
  destruct (b2z b =? 192).
  { destruct rest as [|b1 [|b2 [|b3 rest']]]; try done. cbn [app].
    destruct (_ >? MAX_MATCH); [done|]. destruct (_ || _); [done|].
    destruct (copy_match _ _ s) as [s2|] eqn:Hc; [|done]. cbn.
    inversion 1; subst.
    rewrite (copy_match_advance _ _ _ _ _ Hc). cbn. done. }
  destruct (emit (advance s rest) b) as [s2|] eqn:He; [|done].
  cbn [dnext]. inversion 1; subst. rewrite advance_advance.
  rewrite (emit_advance _ _ _ _ extra He). cbn [dnext].
  by rewrite (emit_in _ _ _ He).
Qed.

Lemma dec_reach_more_input D s t extra :
  dec_reach D s t ->
  dec_reach D (advance s (d_in s ++ extra)) (advance t (d_in t ++ extra)).
Proof.
  induction 1 as [s|s s1 s2 Hin Hpos Hb _ IH]; [constructor|].
  apply dec_reach_step with (advance s1 (d_in s1 ++ extra)); [| | |done].
  - cbn [advance d_in]. rewrite len_app. pose proof (len_nonneg extra). lia.
  - done.
  - by apply dec_body_more_input.
Qed.

Lemma rd32_app_l input extra off :
  0 <= off -> off + 3 < len input -> rd32 (input ++ extra) off = rd32 input off.
Proof. intros. unfold rd32. by rewrite !getb_app_l by lia. Qed.

Lemma rd16_app_l input extra off :
  0 <= off -> off + 1 < len input -> rd16 (input ++ extra) off = rd16 input off.
Proof. intros. unfold rd16. by rewrite !getb_app_l by lia. Qed.

(** X10. Bytes after a valid stream are ignored: when nanozip_decompress
    accepts an input (returns non-zero), it returns the same value and
    leaves the same buffer on that input followed by any further bytes. *)
Theorem trailing_bytes_ignored input extra output out_size r buf :
  out_size <= len output ->
  nanozip_decompress input output out_size = Some (r, buf) -> r <> 0 ->
  nanozip_decompress (input ++ extra) output out_size = Some (r, buf).
Proof.
  intros Hcap Hd Hr. unfold nanozip_decompress in *.
  destruct (decompress_run_spec input output out_size Hcap)
    as [[Hh Hrun]|(Hh & t & s & Hrun & Hreach & Hstop & Hinv & Ho & Hp & _)];
    rewrite Hrun in Hd; cbn [mbind option_bind] in Hd.
  { inversion Hd. congruence. }
  inversion Hd as [[Hv Hb]]. clear Hd.
  assert (Hlen14 : 14 <= len input).
  { unfold header_ok in Hh. destruct (Z.ltb_spec (len input) 14); [done|lia]. }
  assert (Hmagic : hdr_magic (input ++ extra) = hdr_magic input)
    by (apply rd32_app_l; lia).
  assert (Hsize : hdr_size (input ++ extra) = hdr_size input)
    by (apply rd32_app_l; lia).
  assert (Hcrc : hdr_crc (input ++ extra) = hdr_crc input)
    by (apply rd32_app_l; lia).
  assert (Hwin : hdr_window (input ++ extra) = hdr_window input)
    by (apply rd16_app_l; lia).
  assert (Hh2 : header_ok (input ++ extra) out_size = true).
  { unfold header_ok in *. rewrite Hmagic, Hsize, Hwin, len_app.
    pose proof (len_nonneg extra).
    destruct (Z.ltb_spec (len input) 14); [done|].
    destruct (Z.ltb_spec (len input + len extra) 14); [lia|done]. }
  destruct (decompress_run_spec (input ++ extra) output out_size Hcap)
    as [[Hbad _]|(_ & t2 & s2 & Hrun2 & Hreach2 & Hstop2 & _ & Ho2 & _)];
    [congruence|].
  rewrite Hrun2. cbn [mbind option_bind]. rewrite Hsize in *.
  assert (Hfull : d_pos t = hdr_size input).
  { unfold verdict in Hv.
    destruct (Z.eqb_spec (d_pos t) (hdr_size input)); [done|].
    cbn [andb] in Hv. congruence. }
  pose proof (dec_reach_more_input _ _ _ extra Hreach) as Hext.
  assert (Hinit : advance (dec_init input output)
                    (d_in (dec_init input output) ++ extra)
                  = dec_init (input ++ extra) output).
  { unfold dec_init, advance. cbn [d_in d_pos d_out d_log]. f_equal.
    rewrite drop_app_le; [done|]. unfold len in Hlen14. lia. }
  rewrite Hinit in Hext.
  assert (Hstop3 : loop_cond (hdr_size input) (advance t (d_in t ++ extra))
                   = false \/
                   dec_body (hdr_size input) (advance t (d_in t ++ extra))
                   = DBreak).
  { left. unfold loop_cond. cbn [advance d_pos].
    destruct (Z.ltb_spec (d_pos t) (hdr_size input)); [lia|].
    apply andb_false_r. }
  pose proof (dec_loop_reach _ _ _ Hreach2 Hstop2 _ (le_n _)) as H1.
  pose proof (dec_loop_reach _ _ _ Hext Hstop3 _ (le_n _)) as H2.
  assert (t2 = advance t (d_in t ++ extra)) as -> by congruence.
  rewrite Ho2. cbn [advance d_out].
  assert (verdict (input ++ extra) (advance t (d_in t ++ extra))
          = verdict input t) as ->.
  { unfold verdict. by rewrite Hsize, Hcrc. }
  rewrite Hv. by rewrite <- Ho, Hb.
Qed.

Lemma trailing_bytes_ignored_witness :
  nanozip_decompress (stream_window1 ++ [xc0; xbf; x00]) (replicate 5 x00) 5
  = Some (5, [x61; x62; x61; x62; x61]).
Proof.
  apply trailing_bytes_ignored.
  - vm_compute. discriminate.
  - vm_compute. reflexivity.
  - discriminate.
Defined.

(** * Further properties of the checksum *)

Lemma lxor_u32 a b : u32 a -> u32 b -> u32 (Z.lxor a b).
Proof.
  unfold u32. intros Ha Hb.
  assert (0 <= Z.lxor a b) by (apply Z.lxor_nonneg; lia).
  split; [done|].
  destruct (Z.eq_dec (Z.lxor a b) 0) as [->|Hne]; [lia|].
  apply Z.log2_lt_pow2; [lia|].
  pose proof (Z.log2_lxor a b ltac:(lia) ltac:(lia)) as Hl.
  assert (Z.log2 a < 32).
  { destruct (Z.eq_dec a 0) as [->|]; [cbn; lia|].
    apply Z.log2_lt_pow2; lia. }
  assert (Z.log2 b < 32).
  { destruct (Z.eq_dec b 0) as [->|]; [cbn; lia|].
    apply Z.log2_lt_pow2; lia. }
  lia.
Qed.

Lemma lxor_cancel_r a b c : Z.lxor a c = Z.lxor b c -> a = b.
Proof.
  intros H. rewrite <- (Z.lxor_0_r a), <- (Z.lxor_0_r b).
  rewrite <- (Z.lxor_nilpotent c), <- !Z.lxor_assoc. by rewrite H.
Qed.

(** The branch-free step of the inner loop is the bit-serial step of the
    reflected CRC: shift right, and xor with the polynomial when the bit
    shifted out was set. *)
Lemma crc_shift_cases c :
  crc_shift c
  = if Z.odd c then Z.lxor (Z.shiftr c 1) CRC32_POLY else Z.shiftr c 1.
Proof.
  unfold crc_shift. change 1 with (Z.ones 1) at 2.
  rewrite Z.land_ones by lia. change (2 ^ 1) with 2. rewrite Zmod_odd.
  destruct (Z.odd c).
  - reflexivity.
  - change (wrap32 (- 0)) with 0. by rewrite Z.land_0_r, Z.lxor_0_r.
Qed.

Lemma shiftr1_u32 c : u32 c -> 0 <= Z.shiftr c 1 < 2 ^ 31.
Proof.
  unfold u32. intros Hc. rewrite Z.shiftr_div_pow2 by lia.
  change (2 ^ 1) with 2. change (2 ^ 31) with 2147483648.
  change (2 ^ 32) with 4294967296 in Hc.
  split; [apply Z.div_pos; lia|apply Z.div_lt_upper_bound; lia].
Qed.

Lemma crc_shift_u32 c : u32 c -> u32 (crc_shift c).
Proof.
  intros Hc. rewrite crc_shift_cases.
  pose proof (shiftr1_u32 c Hc) as Hs.
  assert (u32 (Z.shiftr c 1))
    by (unfold u32; change (2 ^ 31) with 2147483648 in Hs;
        change (2 ^ 32) with 4294967296; lia).
  destruct (Z.odd c); [|done]. apply lxor_u32; [done|].
  unfold u32, CRC32_POLY. lia.
Qed.

Lemma crc_shift_top c : u32 c -> Z.testbit (crc_shift c) 31 = Z.odd c.
Proof.
  intros Hc. rewrite crc_shift_cases.
  pose proof (shiftr1_u32 c Hc) as Hs.
  assert (Z.testbit (Z.shiftr c 1) 31 = false) as Hb.
  { destruct (Z.eq_dec (Z.shiftr c 1) 0) as [->|]; [apply Z.bits_0|].
    apply Z.bits_above_log2; [lia|]. apply Z.log2_lt_pow2; lia. }
  destruct (Z.odd c); [|done].
  rewrite Z.lxor_spec, Hb. reflexivity.
Qed.

Lemma crc_shift_inj a b : u32 a -> u32 b -> crc_shift a = crc_shift b -> a = b.
Proof.
  intros Ha Hb H.
  assert (Z.odd a = Z.odd b) as Hodd
    by (by rewrite <- (crc_shift_top a), <- (crc_shift_top b), H).
  rewrite !crc_shift_cases, Hodd in H.
  assert (Z.shiftr a 1 = Z.shiftr b 1) as Hs.
  { destruct (Z.odd b); [by apply lxor_cancel_r in H|done]. }
  rewrite !Z.shiftr_div_pow2 in Hs by lia. change (2 ^ 1) with 2 in Hs.
  rewrite (Z.div_mod a 2), (Z.div_mod b 2) by lia.
  by rewrite !Zmod_odd, Hodd, Hs.
Qed.

Lemma iter_crc_shift_u32 n c : u32 c -> u32 (Nat.iter n crc_shift c).
Proof.
  intros Hc. induction n as [|n IH]; [done|]. cbn. by apply crc_shift_u32.
Qed.

Lemma iter_crc_shift_inj n a b :
  u32 a -> u32 b -> Nat.iter n crc_shift a = Nat.iter n crc_shift b -> a = b.
Proof.
  intros Ha Hb. induction n as [|n IH]; [done|]. cbn. intros H.
  apply IH. apply crc_shift_inj; [by apply iter_crc_shift_u32..|done].
Qed.

Lemma b2z_u32 b : u32 (b2z b).
Proof. pose proof (b2z_range b). unfold u32. lia. Qed.

Lemma crc_byte_eq c b :
  crc_byte c b = Nat.iter 8 crc_shift (Z.lxor c (b2z b)).
Proof. reflexivity. Qed.

Lemma crc_byte_u32 c b : u32 c -> u32 (crc_byte c b).
Proof.
  intros Hc. rewrite crc_byte_eq. apply iter_crc_shift_u32.
  apply lxor_u32; [done|apply b2z_u32].
Qed.

Lemma crc_byte_inj_state a b x :
  u32 a -> u32 b -> crc_byte a x = crc_byte b x -> a = b.
Proof.
  intros Ha Hb H.
  pose proof (lxor_u32 a (b2z x) Ha (b2z_u32 x)) as H1.
  pose proof (lxor_u32 b (b2z x) Hb (b2z_u32 x)) as H2.
  rewrite !crc_byte_eq in H.
  exact (lxor_cancel_r _ _ _ (iter_crc_shift_inj 8 _ _ H1 H2 H)).
Qed.

Lemma crc_byte_inj_byte c x y :
  u32 c -> crc_byte c x = crc_byte c y -> x = y.
Proof.
  intros Hc H.
  pose proof (lxor_u32 c (b2z x) Hc (b2z_u32 x)) as H1.
  pose proof (lxor_u32 c (b2z y) Hc (b2z_u32 y)) as H2.
  rewrite !crc_byte_eq in H.
  pose proof (iter_crc_shift_inj 8 _ _ H1 H2 H) as H3.
  rewrite !(Z.lxor_comm c) in H3. apply lxor_cancel_r in H3.
  by apply b2z_inj.
Qed.

Lemma fold_left_step {A B} (f : A -> B -> A) x l a :
  fold_left f (x :: l) a = fold_left f l (f a x).
Proof. reflexivity. Qed.

Lemma crc_fold_u32 data : forall c, u32 c -> u32 (fold_left crc_byte data c).
Proof.
  induction data as [|x data IH]; intros c Hc; [exact Hc|].
  rewrite fold_left_step. exact (IH _ (crc_byte_u32 c x Hc)).
Qed.

Lemma crc_fold_inj data : forall a b,
  u32 a -> u32 b ->
  fold_left crc_byte data a = fold_left crc_byte data b -> a = b.
Proof.
  induction data as [|x data IH]; intros a b Ha Hb H; [exact H|].
  rewrite !fold_left_step in H.
  exact (crc_byte_inj_state a b x Ha Hb
           (IH _ _ (crc_byte_u32 a x Ha) (crc_byte_u32 b x Hb) H)).
Qed.

Lemma crc_final_inj a b :
  u32 a -> u32 b -> wrap32 (Z.lnot a) = wrap32 (Z.lnot b) -> a = b.
Proof.
  unfold u32, wrap32, Z.lnot. change (2 ^ 32) with 4294967296.
  intros Ha Hb H.
  assert (forall x, 0 <= x < 4294967296 ->
            Z.pred (- x) mod 4294967296 = 4294967295 - x) as Hm.
  { intros x Hx.
    replace (Z.pred (- x)) with (4294967295 - x + (-1) * 4294967296) by lia.
    rewrite Z.mod_add by lia. apply Z.mod_small. lia. }
  rewrite !Hm in H by done. lia.
Qed.

(** Two buffers that differ in one byte have different checksums. *)
Lemma crc_one_byte_core pre post b b' :
  b <> b' ->
  nz_crc32 (pre ++ b :: post) <> nz_crc32 (pre ++ b' :: post).
Proof.
  intros Hne H. unfold nz_crc32 in H.
  assert (u32 4294967295) as Hinit by (unfold u32; lia).
  pose proof (crc_fold_u32 pre _ Hinit) as Hpre.
  pose proof (crc_final_inj _ _ (crc_fold_u32 _ _ Hinit) (crc_fold_u32 _ _ Hinit)
                H) as H1.
  rewrite !fold_left_app, !fold_left_step in H1.
  pose proof (crc_fold_inj post _ _ (crc_byte_u32 _ b Hpre)
                (crc_byte_u32 _ b' Hpre) H1) as H2.
  exact (Hne (crc_byte_inj_byte _ _ _ Hpre H2)).
Qed.

(** X11. nz_crc32 tells apart two buffers that differ in exactly one byte. *)
Theorem crc_detects_one_byte pre post b b' :
  b <> b' ->
  nz_crc32 (pre ++ b :: post) <> nz_crc32 (pre ++ b' :: post).
Proof. apply crc_one_byte_core. Qed.

Lemma crc_detects_one_byte_witness :
  nz_crc32 [x41; x42; x43] <> nz_crc32 [x41; x62; x43].
Proof.
  apply (crc_detects_one_byte [x41] [x43] x42 x62). discriminate.
Defined.

(** The stream a run accepts carries the CRC of what was produced. *)
Lemma accepted_crc input output out_size r s :
  decompress_run input output out_size = Some (r, s) -> r <> 0 ->
  r = hdr_size input
  /\ nz_crc32 (take (Z.to_nat r) (d_out s)) = hdr_crc input.
Proof.
  unfold decompress_run.
  destruct (len input <? 14); [inversion 1; lia|].
  destruct (negb _); [inversion 1; lia|].
  destruct (_ || _); [inversion 1; lia|].
  destruct (dec_loop _ _ _) as [t|]; [|done]. cbn [mbind option_bind].
  destruct (negb (d_pos t =? _)); [inversion 1; lia|].
  unfold load_span. destruct (_ <=? _); [|done]. cbn [mbind option_bind].
  destruct (Z.eqb_spec (nz_crc32 (take (Z.to_nat (hdr_size input)) (d_out t)))
              (hdr_crc input)) as [E|]; cbn [negb]; [|inversion 1; lia].
  inversion 1; subst. cbn [d_out]. done.
Qed.

(** X12. A corruption of one byte never passes: if the header stores the
    CRC of some data, nanozip_decompress does not accept a stream that
    decodes to those data with exactly one byte changed. *)
Theorem one_byte_corruption_rejected input output out_size r buf pre post b b' :
  nanozip_decompress input output out_size = Some (r, buf) -> r <> 0 ->
  hdr_crc input = nz_crc32 (pre ++ b :: post) -> b <> b' ->
  take (Z.to_nat r) buf <> pre ++ b' :: post.
Proof.
  intros Hd Hr Hcrc Hne Hbuf. unfold nanozip_decompress in Hd.
  destruct (decompress_run input output out_size) as [[r0 s]|] eqn:Hrun;
    [|done].
  cbn in Hd. inversion Hd; subst.
  destruct (accepted_crc _ _ _ _ _ Hrun Hr) as [_ Hc].
  rewrite Hbuf, Hcrc in Hc.
  by apply (crc_one_byte_core pre post b' b) in Hc.
Qed.

Lemma one_byte_corruption_rejected_witness :
  take (Z.to_nat 5) [x61; x62; x61; x62; x61] <> [x61; x62] ++ x78 :: [x62; x61].
Proof.
  apply (one_byte_corruption_rejected stream_window1 (replicate 5 x00) 5 5
           [x61; x62; x61; x62; x61] [x61; x62] [x62; x61] x61 x78).
  - vm_compute. reflexivity.
  - discriminate.
  - vm_compute. reflexivity.
  - discriminate.
Defined.

(** ** The empty input, the window field, and the test driver *)

(** X13. The empty input: with room for the header, nanozip_compress
    writes the 14 header bytes and nothing else, for every backend and
    window argument; nanozip_decompress on them returns 0, the value it
    also returns for a refused stream, and leaves the buffer as it was. *)
Theorem empty_input bk out_size w output cap :
  14 <= out_size ->
  nanozip_compress bk [] out_size w
    = (14, header [] (nz_init (wrap64 w)))
  /\ nanozip_decompress (header [] (nz_init (wrap64 w))) output cap
    = Some (0, output).
Proof.
  intros Hroom. split.
  - unfold nanozip_compress, compress_run. change (len []) with 0.
    destruct (Z.ltb_spec out_size (0 + 14)); [lia|]. reflexivity.
  - set (st := nz_init (wrap64 w)).
    destruct (header_fields [] st []) as (Hm & Hs & Hc & Hw & Hd & Hl).
    rewrite app_nil_r in Hm, Hs, Hc, Hw, Hd, Hl.
    change (len []) with 0 in Hs, Hl. change (wrap32 0) with 0 in Hs.
    unfold nanozip_decompress, decompress_run, dec_init.
    rewrite Hl, Hm, Hs, Hc, Hd. change (14 + 0 <? 14) with false.
    rewrite Z.eqb_refl. cbn [negb].
    destruct (_ || _); [reflexivity|].
    cbn [length d_in dec_loop mbind option_bind d_pos]. cbn [Z.eqb negb].
    unfold load_span. cbn [d_out].
    destruct (Z.leb_spec 0 (len output)) as [_|Hneg];
      [|pose proof (len_nonneg output); lia].
    cbn [mbind option_bind Z.to_nat take]. rewrite Z.eqb_refl. reflexivity.
Qed.

Lemma empty_input_witness :
  nanozip_compress (mkBackend Portable ShiftLoop) [] 14 0
    = (14, header [] (nz_init (wrap64 0)))
  /\ nanozip_decompress (header [] (nz_init (wrap64 0))) [x07; x08] 2
    = Some (0, [x07; x08]).
Proof.
  apply (empty_input (mkBackend Portable ShiftLoop) 14 0 [x07; x08] 2). lia.
Defined.

(** X14. The decoder uses the window field of the header only to refuse a
    zero: two streams that differ in nothing but bytes 12 and 13, both
    non-zero as a 16-bit value, give the same return value and the same
    buffer. The test [window_size > MAX_WINDOW] cannot hold for a 16-bit
    field. *)
Theorem window_field_unused hd w0 w1 w0' w1' rest output out_size :
  length hd = 12%nat ->
  rd16 [w0; w1] 0 <> 0 -> rd16 [w0'; w1'] 0 <> 0 ->
  nanozip_decompress (hd ++ [w0; w1] ++ rest) output out_size
  = nanozip_decompress (hd ++ [w0'; w1'] ++ rest) output out_size.
Proof.
  intros Hhd Hw Hw'.
  assert (Hl : len hd = 12) by (unfold len; lia).
  assert (Hfields : forall a b,
    len (hd ++ [a; b] ++ rest) = 14 + len rest
    /\ hdr_magic (hd ++ [a; b] ++ rest) = rd32 hd 0
    /\ hdr_size (hd ++ [a; b] ++ rest) = rd32 hd 4
    /\ hdr_crc (hd ++ [a; b] ++ rest) = rd32 hd 8
    /\ hdr_window (hd ++ [a; b] ++ rest) = rd16 [a; b] 0
    /\ drop 14 (hd ++ [a; b] ++ rest) = rest).
  { intros a b. unfold hdr_magic, hdr_size, hdr_crc, hdr_window.
    split; [rewrite !len_app; change (len [a; b]) with 2; lia|].
    rewrite !rd32_app_l by lia.
    do 3 (split; [reflexivity|]). split.
    - rewrite <- Hl. cbn [app]. rewrite rd16_app.
      unfold rd16, getb. reflexivity.
    - rewrite drop_app_ge by lia. rewrite Hhd. reflexivity. }
  destruct (Hfields w0 w1) as (E1 & E2 & E3 & E4 & E5 & E6).
  destruct (Hfields w0' w1') as (F1 & F2 & F3 & F4 & F5 & F6).
  unfold nanozip_decompress, decompress_run, dec_init.
  rewrite E1, E2, E3, E4, E5, E6, F1, F2, F3, F4, F5, F6.
  pose proof (rd16_range [w0; w1] 0) as R.
  pose proof (rd16_range [w0'; w1'] 0) as R'.
  change (2 ^ 16) with 65536 in R, R'.
  destruct (Z.eqb_spec (rd16 [w0; w1] 0) 0); [done|].
  destruct (Z.eqb_spec (rd16 [w0'; w1'] 0) 0); [done|].
  change MAX_WINDOW with 65535.
  destruct (Z.gtb_spec (rd16 [w0; w1] 0) 65535); [lia|].
  destruct (Z.gtb_spec (rd16 [w0'; w1'] 0) 65535); [lia|].
  reflexivity.
Qed.

Lemma window_field_unused_witness :
  nanozip_decompress (take 12 stream_window1 ++ [x01; x00] ++ drop 14 stream_window1)
    (replicate 5 x00) 5
  = nanozip_decompress (take 12 stream_window1 ++ [xff; xff] ++ drop 14 stream_window1)
    (replicate 5 x00) 5.
Proof.
  apply (window_field_unused (take 12 stream_window1) x01 x00 xff xff
           (drop 14 stream_window1) (replicate 5 x00) 5).
  - reflexivity.
  - vm_compute. discriminate.
  - vm_compute. discriminate.
Defined.




